(** * ordered-map-go: a shallow embedding of [ordered_map.go]

    The Go package [orderedmap] keeps a hash map [data] next to a slice
    [order] of keys.  This development embeds the methods of [OrderedMap]
    as functions over an explicit state record and proves the properties
    the specification states about them.

    Modelling conventions.
    - [map[K]V] is a [gmap K V]; [m.data[k]] on a missing key yields the
      zero value of [V], which is the class method [zero].
    - [[]K] is a [list K]; [append], [copy] and slicing are written out
      with [++], [take] and [drop].  The slice [order] never leaves the
      container (snapshot methods copy it), so no aliasing is observable
      and capacity is not tracked.
    - Go's [int] is [Z] where the code uses the value [-1] ([indexOf]),
      and [nat] where it only ever indexes a slice.  Every [int] of the
      package is a length, a capacity or an index, so none can wrap.
    - A nil-able function value is an [option].
    - [error] is [option error]: [None] is Go's [nil].
    - A method with a pointer receiver that writes returns the new state;
      the mutex [mu] is not part of the sequential state.
    - The key type has a decidable equality that is reflexive, as every
      [comparable] Go type has except for floating-point NaN. *)

From stdpp Require Import gmap strings list sorting.
From Stdlib Require Import ZArith.

Open Scope Z_scope.

(** The zero value of a Go type ([var zero V]). *)
Class Zero (V : Type) := zero : V.
Global Hint Mode Zero ! : typeclass_instances.

Global Instance Z_Zero : Zero Z := 0.
Global Instance nat_Zero : Zero nat := 0%nat.
Global Instance string_Zero : Zero string := EmptyString.

(** ** Slice primitives *)

Section Slices.
Context {A : Type}.

(** [append(s, x)] *)
Definition go_append (s : list A) (x : A) : list A := s ++ [x].

(** [copy(s[d:], s[src:])] on one backing array: [copy] moves
    [min(len(s[d:]), len(s[src:]))] elements and behaves like memmove
    when the two windows overlap. *)
Definition go_copy (s : list A) (d src : nat) : list A :=
  let n := Nat.min (length s - d) (length s - src) in
  take d s ++ take n (drop src s) ++ drop (d + n) s.

(** [append(s[:i], s[j:]...)] on one backing array. *)
Definition go_append_slices (s : list A) (i j : nat) : list A :=
  take i s ++ drop j s.
End Slices.

(** ** Data model *)

(** [type Pair[K, V] struct { Key K; Value V }] *)
Record Pair (K V : Type) := mkPair { Key : K; Value : V }.
Arguments mkPair {K V} _ _.
Arguments Key {K V} _.
Arguments Value {K V} _.

(** The error values the package returns.  [ErrComparatorRequired] is the
    exported sentinel; the other three are built with [fmt.Errorf] and
    carry the offending key:
    - [ErrUpsertRequiresFn k]: "upsert requires fn when key exists: k"
    - [ErrKeyAlreadyExists k]: "key already exists: k"
    - [ErrTargetNotFound k]: "target key not found: k" *)
Inductive error (K : Type) : Type :=
  | ErrComparatorRequired
  | ErrUpsertRequiresFn (key : K)
  | ErrKeyAlreadyExists (key : K)
  | ErrTargetNotFound (key : K).
Arguments ErrComparatorRequired {K}.
Arguments ErrUpsertRequiresFn {K} _.
Arguments ErrKeyAlreadyExists {K} _.
Arguments ErrTargetNotFound {K} _.

(** [type orderedMapConfig[K] struct { capacity int; less func(a, b K) bool }] *)
Record orderedMapConfig (K : Type) := mkConfig {
  capacity : Z;
  cfg_less : option (K → K → bool)
}.
Arguments mkConfig {K} _ _.
Arguments capacity {K} _.
Arguments cfg_less {K} _.

(** [type Option[K]]: a function that updates an [orderedMapConfig[K]]
    through a pointer, here a function from the old to the new record. *)
Definition Option (K : Type) : Type := orderedMapConfig K → orderedMapConfig K.

(** [WithCapacity(n)]: [n <= 0] leaves the configuration alone. *)
Definition WithCapacity {K : Type} (n : Z) : Option K :=
  λ cfg, if decide (n > 0) then mkConfig n (cfg_less cfg) else cfg.

(** [WithComparator(less)] *)
Definition WithComparator {K : Type} (less : option (K → K → bool)) : Option K :=
  λ cfg, mkConfig (capacity cfg) less.

(** The options a caller outside the package can pass: nil, or a value
    built by [WithCapacity] or [WithComparator]; the fields of
    [orderedMapConfig] are not exported. *)
Definition from_constructors {K : Type} (opt : option (Option K)) : Prop :=
  opt = None ∨ (∃ n, opt = Some (WithCapacity n)) ∨
  (∃ less, opt = Some (WithComparator less)).

(** [type OrderedMap[K, V] struct { mu; data map[K]V; order []K; less }] *)
Record OrderedMap (K : Type) `{Countable K} (V : Type) := mkOrderedMap {
  data : gmap K V;
  order : list K;
  less : option (K → K → bool)
}.
Arguments mkOrderedMap {K _ _ V} _ _ _.
Arguments data {K _ _ V} _.
Arguments order {K _ _ V} _.
Arguments less {K _ _ V} _.

(** ** [sort.SliceStable]

    [SortedPairs] sorts its snapshot with [sort.SliceStable] of the Go
    standard library, which runs [stable_func] of [sort/zsortfunc.go] on a
    [lessSwap] pair: insertion sort on blocks of 20 elements, then rounds
    of in-place [symMerge_func] on neighbouring blocks.  The slice is the
    list [s]; [data.Less(i, j)] reads it and [data.Swap(i, j)] exchanges
    two of its elements.  Every index the algorithm computes lies inside
    the slice and every difference it takes is non-negative, so indices
    are [nat], and [int(uint(i+j) >> 1)] is [(i + j) / 2].  An index
    outside the slice would make Go panic; [Less] then answers [false]
    and [Swap] does nothing, branches that the correctness proofs never
    go through.  Loops that are not counted carry a fuel argument that is
    set from the loop's own bound; section [Fuel] shows that more fuel
    never changes a result. *)

Section SliceStable.
Local Open Scope nat_scope.
Context {A : Type} (cmp : A → A → bool).

(** [data.Less(i, j)] *)
Definition Less (s : list A) (i j : nat) : bool :=
  match s !! i, s !! j with
  | Some x, Some y => cmp x y
  | _, _ => false
  end.

(** [data.Swap(i, j)] *)
Definition Swap (s : list A) (i j : nat) : list A :=
  match s !! i, s !! j with
  | Some x, Some y => <[j := x]> (<[i := y]> s)
  | _, _ => s
  end.

(** [for j := i; j > a && data.Less(j, j-1); j-- { data.Swap(j, j-1) }] *)
Fixpoint insertionSort_inner (a j : nat) (s : list A) : list A :=
  match j with
  | O => s
  | S j' =>
      if bool_decide (a < j) && Less s j j'
      then insertionSort_inner a j' (Swap s j j')
      else s
  end.

(** [insertionSort_func(data, a, b)]: [for i := a + 1; i < b; i++]. *)
Definition insertionSort_func (s : list A) (a b : nat) : list A :=
  foldl (λ s i, insertionSort_inner a i s) s (seq (a + 1) (b - (a + 1))).

(** [swapRange_func(data, a, b, n)] *)
Definition swapRange_func (s : list A) (a b n : nat) : list A :=
  foldl (λ s i, Swap s (a + i) (b + i)) s (seq 0 n).

(** The loop [for i != j] of [rotate_func]; it returns the slice and
    the final [i]. *)
Fixpoint rotate_loop (fuel : nat) (s : list A) (m i j : nat) : list A * nat :=
  match fuel with
  | O => (s, i)
  | S fuel' =>
      if bool_decide (i ≠ j) then
        if bool_decide (j < i)
        then rotate_loop fuel' (swapRange_func s (m - i) m j) m (i - j) j
        else rotate_loop fuel' (swapRange_func s (m - i) (m + j - i) i) m i (j - i)
      else (s, i)
  end.

(** [rotate_func(data, a, m, b)] *)
Definition rotate_func (s : list A) (a m b : nat) : list A :=
  let i := m - a in
  let j := b - m in
  let '(s, i) := rotate_loop (i + j) s m i j in
  swapRange_func s (m - i) m i.

(** The three binary searches of [symMerge_func] share one shape:
    [for i < j { h := int(uint(i+j) >> 1); if cond(h) { i = h + 1 } else { j = h } }],
    and the value used afterwards is [i]. *)
Fixpoint bsearch (fuel : nat) (cond : nat → bool) (i j : nat) : nat :=
  match fuel with
  | O => i
  | S fuel' =>
      if bool_decide (i < j) then
        let h := (i + j) / 2 in
        if cond h then bsearch fuel' cond (h + 1) j
        else bsearch fuel' cond i h
      else i
  end.

(** [symMerge_func(data, a, m, b)] *)
Fixpoint symMerge_fuel (fuel : nat) (s : list A) (a m b : nat) : list A :=
  match fuel with
  | O => s
  | S fuel' =>
      if bool_decide (m - a = 1) then
        let i := bsearch (b - m) (λ h, Less s h a) m b in
        foldl (λ s k, Swap s k (k + 1)) s (seq a (i - 1 - a))
      else if bool_decide (b - m = 1) then
        let i := bsearch (m - a) (λ h, negb (Less s m h)) a m in
        foldl (λ s k, Swap s k (k - 1)) s (rev (seq (i + 1) (m - i)))
      else
        let mid := (a + b) / 2 in
        let n := mid + m in
        let '(start, r) :=
          if bool_decide (mid < m) then (n - b, mid) else (a, m) in
        let p := n - 1 in
        let start := bsearch (r - start) (λ c, negb (Less s (p - c) c)) start r in
        let end_ := n - start in
        let s :=
          if bool_decide (start < m ∧ m < end_)
          then rotate_func s start m end_ else s in
        let s :=
          if bool_decide (a < start ∧ start < mid)
          then symMerge_fuel fuel' s a start mid else s in
        if bool_decide (mid < end_ ∧ end_ < b)
        then symMerge_fuel fuel' s mid end_ b else s
  end.

Definition symMerge_func (s : list A) (a m b : nat) : list A :=
  symMerge_fuel (b - a) s a m b.

(** [for b <= n { insertionSort_func(data, a, b); a = b; b += blockSize }];
    it returns the slice and the final [a]. *)
Fixpoint stable_blocks (fuel : nat) (s : list A) (blockSize a b n : nat)
    : list A * nat :=
  match fuel with
  | O => (s, a)
  | S fuel' =>
      if bool_decide (b ≤ n)
      then stable_blocks fuel' (insertionSort_func s a b) blockSize b (b + blockSize) n
      else (s, a)
  end.

(** [for b <= n { symMerge_func(data, a, a+blockSize, b); a = b; b += 2 * blockSize }] *)
Fixpoint stable_pairs (fuel : nat) (s : list A) (blockSize a b n : nat)
    : list A * nat :=
  match fuel with
  | O => (s, a)
  | S fuel' =>
      if bool_decide (b ≤ n)
      then stable_pairs fuel' (symMerge_func s a (a + blockSize) b)
                        blockSize b (b + 2 * blockSize) n
      else (s, a)
  end.

(** [for blockSize < n { ...; blockSize *= 2 }] *)
Fixpoint stable_rounds (fuel : nat) (s : list A) (blockSize n : nat) : list A :=
  match fuel with
  | O => s
  | S fuel' =>
      if bool_decide (blockSize < n) then
        let '(s, a) := stable_pairs n s blockSize 0 (2 * blockSize) n in
        let m := a + blockSize in
        let s := if bool_decide (m < n) then symMerge_func s a m n else s in
        stable_rounds fuel' s (blockSize * 2) n
      else s
  end.

(** [stable_func(data, n)] *)
Definition stable_func (s : list A) (n : nat) : list A :=
  let blockSize := 20 in
  let '(s, a) := stable_blocks n s blockSize 0 blockSize n in
  let s := insertionSort_func s a n in
  stable_rounds n s blockSize n.

(** [sort.SliceStable(x, less)] is [stable_func(lessSwap{less, swap}, len(x))]. *)
Definition SliceStable (s : list A) : list A := stable_func s (length s).
End SliceStable.

Section Methods.
Context {K : Type} `{Countable K} {V : Type} `{Zero V}.

Abbreviation OMap := (OrderedMap K V).

(** The option loop of [NewOrderedMap]: it starts from the zero
    configuration and skips nil options. *)
Definition apply_options (opts : list (option (Option K))) : orderedMapConfig K :=
  foldl (λ cfg opt, match opt with Some f => f cfg | None => cfg end)
        (mkConfig 0 None) opts.

(** [NewOrderedMap(opts...)].  [capacity] only sizes the two
    allocations; this is the container the constructor returns when
    they succeed ([make] panics for a capacity it cannot allocate,
    which is outside the model). *)
Definition NewOrderedMap (opts : list (option (Option K))) : OMap :=
  let cfg := apply_options opts in
  mkOrderedMap ∅ [] (cfg_less cfg).

(** [v, ok := data[key]] *)
Definition map_index (d : gmap K V) (key : K) : V * bool :=
  match d !! key with
  | Some v => (v, true)
  | None => (zero, false)
  end.

(** [Set(key, value)] *)
Definition Set_ (m : OMap) (key : K) (value : V) : OMap :=
  let '(_, exists_) := map_index (data m) key in
  if exists_ then
    mkOrderedMap (<[key := value]> (data m)) (order m) (less m)
  else
    mkOrderedMap (<[key := value]> (data m)) (go_append (order m) key) (less m).

(** [Upsert(key, newVal, fn)].  The callback is caller code and may have
    effects of its own, so it is a function on an ambient state [W] that
    [Upsert] threads through: the final [W] records how [fn] was run. *)
Definition Upsert {W : Type} (m : OMap) (key : K) (newVal : V)
    (fn : option (V → W → V * W)) (w : W)
    : (V * bool * option (error K)) * OMap * W :=
  let '(old, exists_) := map_index (data m) key in
  if exists_ then
    match fn with
    | None => ((zero, false, Some (ErrUpsertRequiresFn key)), m, w)
    | Some f =>
        let '(updated, w') := f old w in
        ((updated, false, None),
         mkOrderedMap (<[key := updated]> (data m)) (order m) (less m), w')
    end
  else
    ((newVal, true, None),
     mkOrderedMap (<[key := newVal]> (data m)) (go_append (order m) key) (less m),
     w).

(** [Get(key)] *)
Definition Get (m : OMap) (key : K) : V * bool := map_index (data m) key.

(** [Has(key)] *)
Definition Has (m : OMap) (key : K) : bool := snd (map_index (data m) key).

(** [Len()] is [len(m.data)]. *)
Definition Len (m : OMap) : Z := Z.of_nat (size (data m)).

(** [indexOf(key)]: the first index holding [key], or [-1]. *)
Fixpoint indexOf_from (i : Z) (s : list K) (key : K) : Z :=
  match s with
  | [] => -1
  | k :: s' => if decide (k = key) then i else indexOf_from (i + 1) s' key
  end.

Definition indexOf (m : OMap) (key : K) : Z := indexOf_from 0 (order m) key.

(** [removeFromOrder(key)]: at the first [i] with [order[i] == key],
    [order = append(order[:i], order[i+1:]...)]. *)
Fixpoint removeFromOrder_from (i : nat) (rest s : list K) (key : K) : list K :=
  match rest with
  | [] => s
  | k :: rest' =>
      if decide (k = key) then go_append_slices s i (i + 1)
      else removeFromOrder_from (S i) rest' s key
  end.

Definition removeFromOrder (m : OMap) (key : K) : OMap :=
  mkOrderedMap (data m) (removeFromOrder_from 0 (order m) (order m) key) (less m).

(** [Delete(key)] *)
Definition Delete (m : OMap) (key : K) : (V * bool) * OMap :=
  let '(val, exists_) := map_index (data m) key in
  if negb exists_ then ((zero, false), m)
  else
    let m1 := mkOrderedMap (delete key (data m)) (order m) (less m) in
    ((val, true), removeFromOrder m1 key).

(** [Clear()]: a fresh map and [order[:0]]. *)
Definition Clear (m : OMap) : OMap :=
  mkOrderedMap ∅ (take 0 (order m)) (less m).

(** [Pairs()] *)
Definition Pairs (m : OMap) : list (Pair K V) :=
  foldl (λ pairs k, go_append pairs (mkPair k (fst (map_index (data m) k))))
        [] (order m).

(** [Keys()] is [append([]K(nil), m.order...)]. *)
Definition Keys (m : OMap) : list K := [] ++ order m.

(** [Values()] *)
Definition Values (m : OMap) : list V :=
  foldl (λ values k, go_append values (fst (map_index (data m) k)))
        [] (order m).

(** [InsertBefore(target, key, value)] *)
Definition InsertBefore (m : OMap) (target key : K) (value : V)
    : option (error K) * OMap :=
  let '(_, exists_) := map_index (data m) key in
  if exists_ then (Some (ErrKeyAlreadyExists key), m)
  else
    let idx := indexOf m target in
    if decide (idx = -1) then (Some (ErrTargetNotFound target), m)
    else
      let i := Z.to_nat idx in
      let d := <[key := value]> (data m) in
      let o1 := go_append (order m) key in
      let o2 := go_copy o1 (i + 1) i in
      let o3 := <[i := key]> o2 in
      (None, mkOrderedMap d o3 (less m)).

(** [InsertAfter(target, key, value)] *)
Definition InsertAfter (m : OMap) (target key : K) (value : V)
    : option (error K) * OMap :=
  let '(_, exists_) := map_index (data m) key in
  if exists_ then (Some (ErrKeyAlreadyExists key), m)
  else
    let idx := indexOf m target in
    if decide (idx = -1) then (Some (ErrTargetNotFound target), m)
    else
      let insertPos := Z.to_nat (idx + 1) in
      let d := <[key := value]> (data m) in
      let o1 := go_append (order m) key in
      let o2 := go_copy o1 (insertPos + 1) insertPos in
      let o3 := <[insertPos := key]> o2 in
      (None, mkOrderedMap d o3 (less m)).

(** The closure [SortedPairs] hands to [sort.SliceStable]:
    [func(i, j int) bool { return less(pairs[i].Key, pairs[j].Key) }],
    as a comparison of the two elements it reads. *)
Definition by_key (lt : K → K → bool) : Pair K V → Pair K V → bool :=
  λ p q, lt (Key p) (Key q).

(** [SortedPairs(less)].  The override wins over the registered
    comparator; the snapshot is the loop of [Pairs]; the sort works on
    the snapshot.  On the error path Go returns a nil slice, which is
    the empty list here.  The container is returned as well, so that
    what the method leaves behind can be stated. *)
Definition SortedPairs (m : OMap) (less_arg : option (K → K → bool))
    : (list (Pair K V) * option (error K)) * OMap :=
  let less_ := match less_arg with None => less m | Some _ => less_arg end in
  match less_ with
  | None => (([], Some ErrComparatorRequired), m)
  | Some lt =>
      let pairs :=
        foldl (λ pairs k, go_append pairs (mkPair k (fst (map_index (data m) k))))
              [] (order m) in
      ((SliceStable (by_key lt) pairs, None), m)
  end.
End Methods.

(** ** Sequences of mutating calls *)

(** One call of a mutating method, as a caller can issue it. *)
Inductive op (K V W : Type) : Type :=
  | OpSet (key : K) (value : V)
  | OpUpsert (key : K) (newVal : V) (fn : option (V → W → V * W))
  | OpDelete (key : K)
  | OpClear
  | OpInsertBefore (target key : K) (value : V)
  | OpInsertAfter (target key : K) (value : V).
Arguments OpSet {K V W} _ _.
Arguments OpUpsert {K V W} _ _ _.
Arguments OpDelete {K V W} _.
Arguments OpClear {K V W}.
Arguments OpInsertBefore {K V W} _ _ _.
Arguments OpInsertAfter {K V W} _ _ _.

Section Runs.
Context {K : Type} `{Countable K} {V : Type} `{Zero V} {W : Type}.

(** The state a call leaves behind; results and errors are dropped. *)
Definition apply_op (st : OrderedMap K V * W) (o : op K V W) : OrderedMap K V * W :=
  let '(m, w) := st in
  match o with
  | OpSet key value => (Set_ m key value, w)
  | OpUpsert key newVal fn =>
      let '(_, m', w') := Upsert m key newVal fn w in (m', w')
  | OpDelete key => (snd (Delete m key), w)
  | OpClear => (Clear m, w)
  | OpInsertBefore target key value => (snd (InsertBefore m target key value), w)
  | OpInsertAfter target key value => (snd (InsertAfter m target key value), w)
  end.

Definition run (ops : list (op K V W)) (st : OrderedMap K V * W) : OrderedMap K V * W :=
  foldl apply_op st ops.

(** Invariants I1 and I2 of the data model: [order] has no duplicates
    and holds exactly the keys of [data]. *)
Definition ordered_map_inv (m : OrderedMap K V) : Prop :=
  NoDup (order m) ∧ ∀ k, k ∈ order m ↔ is_Some (data m !! k).
End Runs.

(** ** Comparators *)

Section Comparators.
Context {A : Type} (lt : A → A → bool).

(** Two elements the comparator cannot tell apart. *)
Definition equiv_by (x y : A) : Prop := lt x y = false ∧ lt y x = false.

(** A strict weak ordering: irreflexive, transitive, and with a
    transitive incomparability relation. *)
Record StrictWeakOrder : Prop := {
  swo_irrefl : ∀ x, lt x x = false;
  swo_trans : ∀ x y z, lt x y = true → lt y z = true → lt x z = true;
  swo_equiv_trans : ∀ x y z, equiv_by x y → equiv_by y z → equiv_by x z
}.

(** [s] is in order: no element is less than one before it. *)
Definition sorted_by (s : list A) : Prop :=
  ∀ i j x y, (i < j)%nat → s !! i = Some x → s !! j = Some y → lt y x = false.

(** [x] stands somewhere before [y] in [s]. *)
Definition occurs_before (s : list A) (x y : A) : Prop :=
  ∃ i j, (i < j)%nat ∧ s !! i = Some x ∧ s !! j = Some y.

(** [x] may stand before [y]: [y] is not less than [x]. *)
Definition le_by (x y : A) : Prop := lt y x = false.

(** A pass from [l] to [l'] that rearranges the elements and never
    moves an element in front of an equivalent one that stood before
    it. *)
Definition stable_step (l l' : list A) : Prop :=
  l ≡ₚ l' ∧
  ∀ x y, equiv_by x y → occurs_before l x y → occurs_before l' x y.

(** The slice is a run of sorted blocks of [bs] elements, the last one
    possibly shorter: the state of [stable_func] between its rounds. *)
Inductive blocks_sorted (bs : nat) : list A → Prop :=
  | blocks_last l :
      (length l ≤ bs)%nat → StronglySorted le_by l → blocks_sorted bs l
  | blocks_cons X l :
      length X = bs → StronglySorted le_by X → blocks_sorted bs l →
      blocks_sorted bs (X ++ l).
End Comparators.

(** ** Position predicates used by the statements below *)

Section Positions.
Context {A : Type}.

(** [s'] is [s] with [x] put at index [i] and everything from [i] on
    moved one slot later. *)
Definition inserted_at (s : list A) (i : nat) (x : A) (s' : list A) : Prop :=
  s' !! i = Some x ∧
  (∀ j, (j < i)%nat → s' !! j = s !! j) ∧
  (∀ j, (i ≤ j)%nat → s' !! S j = s !! j).

(** [s'] is [s] with index [i] removed and everything after it moved
    one slot earlier. *)
Definition removed_at (s : list A) (i : nat) (s' : list A) : Prop :=
  (∀ j, (j < i)%nat → s' !! j = s !! j) ∧
  (∀ j, (i ≤ j)%nat → s' !! j = s !! S j).
End Positions.

(** The container of the scenarios: [NewOrderedMap[string, int]()]. *)
Definition new_string_map : OrderedMap string Z := NewOrderedMap [].

(** A pure callback that also counts its invocations in the ambient state. *)
Definition counted {V : Type} (f : V → V) : V → nat → V * nat :=
  λ v n, (f v, S n).

(** * Proofs *)

(** ** Slices *)

Section SliceFacts.
Context {A : Type}.
Implicit Types (s : list A) (x : A).

Lemma foldl_go_append {B} (f : B → A) (l : list B) (acc : list A) :
  foldl (λ acc b, go_append acc (f b)) acc l = acc ++ map f l.
Proof.
  revert acc. induction l as [|b l IH]; intros acc; simpl.
  - by rewrite app_nil_r.
  - rewrite IH. unfold go_append. by rewrite <- app_assoc.
Qed.

Lemma insert_after_copy s (i : nat) x :
  (i ≤ length s)%nat →
  <[i := x]> (go_copy (go_append s x) (i + 1) i) = take i s ++ x :: drop i s.
Proof.
  intros Hi. unfold go_copy, go_append.
  rewrite length_app. simpl.
  rewrite Nat.min_l by lia.
  replace (length s + 1 - (i + 1))%nat with (length s - i)%nat by lia.
  rewrite (drop_ge (s ++ [x]) (i + 1 + (length s - i)))
    by (rewrite length_app; simpl; lia).
  rewrite app_nil_r, drop_app_le by lia.
  rewrite (take_app_length' (drop i s)) by (rewrite length_drop; lia).
  assert (length (take i s) = i) as Hl by (rewrite length_take; lia).
  destruct (decide (i = length s)) as [->|Hne].
  - rewrite take_ge by (rewrite length_app; simpl; lia).
    rewrite (take_ge s), drop_all, app_nil_r by lia.
    replace (length s) with (length s + 0)%nat at 1 by lia.
    by rewrite insert_app_r.
  - rewrite take_app_le by lia.
    assert (is_Some (s !! i)) as [y Hy] by (apply lookup_lt_is_Some; lia).
    replace (i + 1)%nat with (S i) by lia.
    rewrite (take_S_r s i y) by done.
    rewrite <- !app_assoc. simpl.
    replace i with (length (take i s) + 0)%nat at 1 by lia.
    by rewrite insert_app_r.
Qed.

Lemma inserted_at_splice s (i : nat) x :
  (i ≤ length s)%nat → inserted_at s i x (take i s ++ x :: drop i s).
Proof.
  intros Hi. assert (length (take i s) = i) as Hl by (rewrite length_take; lia).
  repeat split.
  - rewrite lookup_app_r by lia. by rewrite Hl, Nat.sub_diag.
  - intros j Hj. rewrite lookup_app_l by lia. by rewrite lookup_take_lt.
  - intros j Hj. rewrite lookup_app_r by lia. rewrite Hl.
    replace (S j - i)%nat with (S (j - i)) by lia. simpl.
    rewrite lookup_drop. f_equal. lia.
Qed.

Lemma removed_at_splice s (i : nat) :
  (i < length s)%nat → removed_at s i (take i s ++ drop (S i) s).
Proof.
  intros Hi. assert (length (take i s) = i) as Hl by (rewrite length_take; lia).
  split.
  - intros j Hj. rewrite lookup_app_l by lia. by rewrite lookup_take_lt.
  - intros j Hj. rewrite lookup_app_r by lia. rewrite Hl, lookup_drop.
    f_equal. lia.
Qed.
End SliceFacts.

Section ContainerFacts.
Context {K : Type} `{Countable K} {V : Type} `{Zero V}.
Implicit Types (m : OrderedMap K V) (k key target : K) (s : list K).

Lemma map_index_Some (d : gmap K V) k v :
  d !! k = Some v → map_index d k = (v, true).
Proof. unfold map_index. by intros ->. Qed.

Lemma map_index_None (d : gmap K V) k :
  d !! k = None → map_index d k = (zero, false).
Proof. unfold map_index. by intros ->. Qed.

Lemma Has_true m k : Has m k = true ↔ is_Some (data m !! k).
Proof.
  unfold Has, map_index. destruct (data m !! k); simpl; split; eauto.
  - done.
  - by intros [? ?].
Qed.

Lemma Has_false m k : Has m k = false ↔ data m !! k = None.
Proof.
  unfold Has, map_index. destruct (data m !! k); simpl; split; eauto; done.
Qed.

Lemma Pairs_map m :
  Pairs m = map (λ k, mkPair k (fst (map_index (data m) k))) (order m).
Proof. unfold Pairs. by rewrite foldl_go_append. Qed.

Lemma Values_map m :
  Values m = map (λ k, fst (map_index (data m) k)) (order m).
Proof. unfold Values. by rewrite foldl_go_append. Qed.

(** [indexOf] finds the first occurrence. *)
Lemma indexOf_from_notin i s k : k ∉ s → indexOf_from i s k = -1.
Proof.
  revert i. induction s as [|k' s IH]; intros i Hk; simpl; [done|].
  apply not_elem_of_cons in Hk as [Hne Hk].
  rewrite decide_False by done. by apply IH.
Qed.

Lemma indexOf_from_in i s k :
  k ∈ s →
  ∃ n : nat, indexOf_from i s k = i + Z.of_nat n ∧ s !! n = Some k ∧ k ∉ take n s.
Proof.
  revert i. induction s as [|k' s IH]; intros i Hk; simpl.
  - by apply elem_of_nil in Hk.
  - destruct (decide (k' = k)) as [->|Hne].
    + exists 0%nat. split_and!; [lia|done|]. simpl. apply not_elem_of_nil.
    + apply elem_of_cons in Hk as [->|Hk]; [done|].
      destruct (IH (i + 1) Hk) as (n & Hn & Hl & Ht).
      exists (S n). split_and!; [lia|done|].
      simpl. apply not_elem_of_cons. split; [congruence|done].
Qed.

Lemma indexOf_absent m k : k ∉ order m → indexOf m k = -1.
Proof. apply indexOf_from_notin. Qed.

Lemma indexOf_present m k :
  k ∈ order m →
  ∃ n : nat, indexOf m k = Z.of_nat n ∧ order m !! n = Some k ∧ k ∉ take n (order m).
Proof.
  intros Hk. destruct (indexOf_from_in 0 _ _ Hk) as (n & Hn & ?).
  exists n. split; [|done]. unfold indexOf. lia.
Qed.

(** [removeFromOrder] deletes the first occurrence. *)
Lemma removeFromOrder_from_notin i rest s k :
  k ∉ rest → removeFromOrder_from i rest s k = s.
Proof.
  revert i. induction rest as [|k' rest IH]; intros i Hk; simpl; [done|].
  apply not_elem_of_cons in Hk as [Hne Hk].
  rewrite decide_False by done. by apply IH.
Qed.

Lemma removeFromOrder_from_in i rest s k :
  k ∈ rest →
  ∃ n : nat, rest !! n = Some k ∧ (k ∉ take n rest) ∧
    removeFromOrder_from i rest s k = take (i + n) s ++ drop (S (i + n)) s.
Proof.
  revert i. induction rest as [|k' rest IH]; intros i Hk; simpl.
  - by apply elem_of_nil in Hk.
  - destruct (decide (k' = k)) as [->|Hne].
    + exists 0%nat. split_and!; [done|by apply not_elem_of_nil|].
      unfold go_append_slices. by rewrite Nat.add_0_r, Nat.add_1_r.
    + apply elem_of_cons in Hk as [->|Hk]; [done|].
      destruct (IH (S i) Hk) as (n & Hl & Ht & Hr).
      exists (S n). split_and!; [done| |].
      * simpl. apply not_elem_of_cons. split; [congruence|done].
      * rewrite Hr. by replace (S i + n)%nat with (i + S n)%nat by lia.
Qed.
End ContainerFacts.

(** ** What each method does, case by case *)

Section MethodFacts.
Context {K : Type} `{Countable K} {V : Type} `{Zero V}.
Implicit Types (m : OrderedMap K V) (k key target : K) (s : list K).

Lemma Set_present m k v :
  is_Some (data m !! k) →
  Set_ m k v = mkOrderedMap (<[k := v]> (data m)) (order m) (less m).
Proof. intros [old Hk]. unfold Set_. by rewrite (map_index_Some _ _ _ Hk). Qed.

Lemma Set_absent m k v :
  data m !! k = None →
  Set_ m k v = mkOrderedMap (<[k := v]> (data m)) (order m ++ [k]) (less m).
Proof. intros Hk. unfold Set_. by rewrite (map_index_None _ _ Hk). Qed.

Lemma Upsert_absent {W} m k nv (fn : option (V → W → V * W)) w :
  data m !! k = None →
  Upsert m k nv fn w =
    ((nv, true, None),
     mkOrderedMap (<[k := nv]> (data m)) (order m ++ [k]) (less m), w).
Proof. intros Hk. unfold Upsert. by rewrite (map_index_None _ _ Hk). Qed.

Lemma Upsert_present {W} m k nv (f : V → W → V * W) w old :
  data m !! k = Some old →
  Upsert m k nv (Some f) w =
    (((f old w).1, false, None),
     mkOrderedMap (<[k := (f old w).1]> (data m)) (order m) (less m),
     (f old w).2).
Proof.
  intros Hk. unfold Upsert. rewrite (map_index_Some _ _ _ Hk).
  by destruct (f old w).
Qed.

Lemma Upsert_present_nil {W} m k nv (w : W) :
  is_Some (data m !! k) →
  Upsert m k nv None w = ((zero, false, Some (ErrUpsertRequiresFn k)), m, w).
Proof. intros [old Hk]. unfold Upsert. by rewrite (map_index_Some _ _ _ Hk). Qed.

Lemma Delete_absent m k :
  data m !! k = None → Delete m k = ((zero, false), m).
Proof. intros Hk. unfold Delete. by rewrite (map_index_None _ _ Hk). Qed.

Lemma Delete_present m k v :
  data m !! k = Some v → k ∈ order m →
  ∃ n : nat, order m !! n = Some k ∧ (k ∉ take n (order m)) ∧
    Delete m k =
      ((v, true),
       mkOrderedMap (delete k (data m))
                    (take n (order m) ++ drop (S n) (order m)) (less m)).
Proof.
  intros Hk Hin. unfold Delete. rewrite (map_index_Some _ _ _ Hk). simpl.
  destruct (removeFromOrder_from_in 0 (order m) (order m) k Hin)
    as (n & Hn & Hfirst & Hr).
  exists n. split_and!; [done..|].
  unfold removeFromOrder. simpl. by rewrite Hr.
Qed.

Lemma Delete_present_unlisted m k v :
  data m !! k = Some v → k ∉ order m →
  Delete m k = ((v, true), mkOrderedMap (delete k (data m)) (order m) (less m)).
Proof.
  intros Hk Hin. unfold Delete. rewrite (map_index_Some _ _ _ Hk). simpl.
  unfold removeFromOrder. simpl. by rewrite removeFromOrder_from_notin.
Qed.

Lemma InsertBefore_duplicate m target k v :
  is_Some (data m !! k) →
  InsertBefore m target k v = (Some (ErrKeyAlreadyExists k), m).
Proof.
  intros [old Hk]. unfold InsertBefore. by rewrite (map_index_Some _ _ _ Hk).
Qed.

Lemma InsertAfter_duplicate m target k v :
  is_Some (data m !! k) →
  InsertAfter m target k v = (Some (ErrKeyAlreadyExists k), m).
Proof.
  intros [old Hk]. unfold InsertAfter. by rewrite (map_index_Some _ _ _ Hk).
Qed.

Lemma InsertBefore_no_target m target k v :
  data m !! k = None → target ∉ order m →
  InsertBefore m target k v = (Some (ErrTargetNotFound target), m).
Proof.
  intros Hk Ht. unfold InsertBefore. rewrite (map_index_None _ _ Hk).
  rewrite (indexOf_absent _ _ Ht). by rewrite decide_True.
Qed.

Lemma InsertAfter_no_target m target k v :
  data m !! k = None → target ∉ order m →
  InsertAfter m target k v = (Some (ErrTargetNotFound target), m).
Proof.
  intros Hk Ht. unfold InsertAfter. rewrite (map_index_None _ _ Hk).
  rewrite (indexOf_absent _ _ Ht). by rewrite decide_True.
Qed.

Lemma InsertBefore_ok m target k v :
  data m !! k = None → target ∈ order m →
  ∃ n : nat, order m !! n = Some target ∧ (target ∉ take n (order m)) ∧
    InsertBefore m target k v =
      (None,
       mkOrderedMap (<[k := v]> (data m))
                    (take n (order m) ++ k :: drop n (order m)) (less m)).
Proof.
  intros Hk Ht. unfold InsertBefore. rewrite (map_index_None _ _ Hk).
  destruct (indexOf_present _ _ Ht) as (n & -> & Hn & Hfirst).
  exists n. split_and!; [done..|].
  rewrite decide_False by lia. rewrite Nat2Z.id.
  rewrite insert_after_copy; [done|].
  apply lookup_lt_Some in Hn. lia.
Qed.

Lemma InsertAfter_ok m target k v :
  data m !! k = None → target ∈ order m →
  ∃ n : nat, order m !! n = Some target ∧ (target ∉ take n (order m)) ∧
    InsertAfter m target k v =
      (None,
       mkOrderedMap (<[k := v]> (data m))
                    (take (S n) (order m) ++ k :: drop (S n) (order m)) (less m)).
Proof.
  intros Hk Ht. unfold InsertAfter. rewrite (map_index_None _ _ Hk).
  destruct (indexOf_present _ _ Ht) as (n & -> & Hn & Hfirst).
  exists n. split_and!; [done..|].
  rewrite decide_False by lia.
  replace (Z.to_nat (Z.of_nat n + 1)) with (S n) by lia.
  rewrite insert_after_copy; [done|].
  apply lookup_lt_Some in Hn. lia.
Qed.
End MethodFacts.

(** ** The invariant is kept by every call *)

Section Invariant.
Context {K : Type} `{Countable K} {V : Type} `{Zero V}.
Implicit Types (m : OrderedMap K V) (k key target : K) (s : list K).

Lemma inv_new (opts : list (option (Option K))) :
  ordered_map_inv (NewOrderedMap (V := V) opts).
Proof.
  split; simpl; [constructor|].
  intros k. rewrite lookup_empty. split.
  - by intros ?%elem_of_nil.
  - by intros [? ?].
Qed.

Lemma inv_update m k v :
  ordered_map_inv m → is_Some (data m !! k) →
  ordered_map_inv (mkOrderedMap (<[k := v]> (data m)) (order m) (less m)).
Proof.
  intros [Hnd Hiff] Hk. split; simpl; [done|].
  intros k'. rewrite Hiff. destruct (decide (k = k')) as [->|Hne].
  - rewrite lookup_insert_eq. split; eauto.
  - by rewrite lookup_insert_ne.
Qed.

Lemma inv_add m k v s' :
  ordered_map_inv m → data m !! k = None → s' ≡ₚ k :: order m →
  ordered_map_inv (mkOrderedMap (<[k := v]> (data m)) s' (less m)).
Proof.
  intros [Hnd Hiff] Hk Hp. split; simpl.
  - rewrite Hp. constructor; [|done].
    rewrite Hiff, Hk. by intros [? ?].
  - intros k'. rewrite Hp, elem_of_cons, Hiff.
    destruct (decide (k = k')) as [->|Hne].
    + rewrite lookup_insert_eq. split; eauto.
    + rewrite lookup_insert_ne by done. split; [|by right].
      intros [->|?]; done.
Qed.

Lemma inv_remove m k (n : nat) :
  ordered_map_inv m → order m !! n = Some k →
  ordered_map_inv
    (mkOrderedMap (delete k (data m))
                  (take n (order m) ++ drop (S n) (order m)) (less m)).
Proof.
  intros [Hnd Hiff] Hn.
  set (rest := take n (order m) ++ drop (S n) (order m)).
  assert (order m ≡ₚ k :: rest) as Hp.
  { rewrite <- (take_drop_middle _ _ _ Hn) at 1.
    by rewrite <- Permutation_middle. }
  assert (∀ k', k' ∈ order m ↔ k' = k ∨ k' ∈ rest) as Hmem.
  { intros k'. by rewrite Hp, elem_of_cons. }
  rewrite Hp in Hnd. apply NoDup_cons in Hnd as [Hnotin Hnd'].
  split; simpl; [done|].
  intros k'. destruct (decide (k = k')) as [->|Hne].
  - rewrite lookup_delete_eq. split; [done|]. by intros [? ?].
  - rewrite lookup_delete_ne by done. rewrite <- Hiff, Hmem.
    split; [by right|]. intros [->|?]; done.
Qed.

Lemma inv_clear m : ordered_map_inv (Clear m).
Proof.
  split; simpl; [rewrite take_0; constructor|].
  intros k. rewrite take_0, lookup_empty. split.
  - by intros ?%elem_of_nil.
  - by intros [? ?].
Qed.

Lemma splice_perm s (n : nat) k : take n s ++ k :: drop n s ≡ₚ k :: s.
Proof. by rewrite <- Permutation_middle, take_drop. Qed.

Lemma inv_Set m k v : ordered_map_inv m → ordered_map_inv (Set_ m k v).
Proof.
  intros Hinv. destruct (data m !! k) as [old|] eqn:Hk.
  - rewrite Set_present by eauto. apply inv_update; eauto.
  - rewrite Set_absent by done. apply inv_add; [done..|].
    by rewrite <- Permutation_cons_append.
Qed.

Lemma inv_Upsert {W} m k nv (fn : option (V → W → V * W)) w :
  ordered_map_inv m → ordered_map_inv (Upsert m k nv fn w).1.2.
Proof.
  intros Hinv. destruct (data m !! k) as [old|] eqn:Hk.
  - destruct fn as [f|].
    + rewrite (Upsert_present _ _ _ _ _ _ Hk). simpl. apply inv_update; eauto.
    + rewrite Upsert_present_nil by eauto. done.
  - rewrite Upsert_absent by done. simpl. apply inv_add; [done..|].
    by rewrite <- Permutation_cons_append.
Qed.

Lemma inv_Delete m k : ordered_map_inv m → ordered_map_inv (Delete m k).2.
Proof.
  intros Hinv. destruct (data m !! k) as [v|] eqn:Hk.
  - assert (k ∈ order m) as Hin by (apply Hinv; eauto).
    destruct (Delete_present _ _ _ Hk Hin) as (n & Hn & _ & ->). simpl.
    by apply inv_remove.
  - by rewrite Delete_absent.
Qed.

Lemma inv_InsertBefore m target k v :
  ordered_map_inv m → ordered_map_inv (InsertBefore m target k v).2.
Proof.
  intros Hinv. destruct (data m !! k) as [old|] eqn:Hk.
  - rewrite InsertBefore_duplicate by eauto. done.
  - destruct (decide (target ∈ order m)) as [Ht|Ht].
    + destruct (InsertBefore_ok _ _ _ v Hk Ht) as (n & _ & _ & ->). simpl.
      apply inv_add; [done..|apply splice_perm].
    + by rewrite InsertBefore_no_target.
Qed.

Lemma inv_InsertAfter m target k v :
  ordered_map_inv m → ordered_map_inv (InsertAfter m target k v).2.
Proof.
  intros Hinv. destruct (data m !! k) as [old|] eqn:Hk.
  - rewrite InsertAfter_duplicate by eauto. done.
  - destruct (decide (target ∈ order m)) as [Ht|Ht].
    + destruct (InsertAfter_ok _ _ _ v Hk Ht) as (n & _ & _ & ->). simpl.
      apply inv_add; [done..|apply splice_perm].
    + by rewrite InsertAfter_no_target.
Qed.

Lemma inv_apply_op {W} (st : OrderedMap K V * W) (o : op K V W) :
  ordered_map_inv st.1 → ordered_map_inv (apply_op st o).1.
Proof.
  destruct st as [m w]. simpl. intros Hinv. destruct o; simpl.
  - by apply inv_Set.
  - pose proof (inv_Upsert m key newVal fn w Hinv) as Hu.
    by destruct (Upsert m key newVal fn w) as [[r m'] w'].
  - by apply inv_Delete.
  - apply inv_clear.
  - by apply inv_InsertBefore.
  - by apply inv_InsertAfter.
Qed.

Lemma inv_run {W} (ops : list (op K V W)) (st : OrderedMap K V * W) :
  ordered_map_inv st.1 → ordered_map_inv (run ops st).1.
Proof.
  revert st. induction ops as [|o ops IH]; intros st Hinv; [done|].
  change (run (o :: ops) st) with (run ops (apply_op st o)).
  apply IH. by apply inv_apply_op.
Qed.

Lemma inv_dom m :
  ordered_map_inv m → list_to_set (order m) =@{gset K} dom (data m).
Proof.
  intros [_ Hiff]. apply set_eq. intros k.
  by rewrite elem_of_list_to_set, elem_of_dom.
Qed.

Lemma inv_length m :
  ordered_map_inv m → length (order m) = size (data m).
Proof.
  intros Hinv. rewrite <- size_dom, <- (inv_dom _ Hinv).
  symmetry. apply size_list_to_set, Hinv.
Qed.

(** The comparator field is written once, by the constructor. *)
Lemma less_apply_op {W} (st : OrderedMap K V * W) (o : op K V W) :
  less (apply_op st o).1 = less st.1.
Proof.
  destruct st as [m w]. destruct o; simpl; try done.
  - unfold Set_. by destruct (map_index (data m) key) as [? []].
  - unfold Upsert. destruct (map_index (data m) key) as [old []]; [|done].
    destruct fn as [f|]; [|done]. by destruct (f old w).
  - unfold Delete. by destruct (map_index (data m) key) as [? []].
  - unfold InsertBefore. destruct (map_index (data m) key) as [? []]; [done|].
    by case_decide.
  - unfold InsertAfter. destruct (map_index (data m) key) as [? []]; [done|].
    by case_decide.
Qed.

Lemma less_run {W} (ops : list (op K V W)) (st : OrderedMap K V * W) :
  less (run ops st).1 = less st.1.
Proof.
  revert st. induction ops as [|o ops IH]; intros st; [done|].
  change (run (o :: ops) st) with (run ops (apply_op st o)).
  by rewrite IH, less_apply_op.
Qed.
End Invariant.

(** ** [sort.SliceStable]: swaps, block swaps and rotation *)

Section SwapFacts.
Local Open Scope nat_scope.
Context {A : Type}.
Implicit Types (s pre post : list A) (x y : A).

Lemma foldl_ext {B} (f g : list A → B → list A) (l : list B) s :
  (∀ s b, f s b = g s b) → foldl f s l = foldl g s l.
Proof.
  intros Hfg. revert s. induction l as [|b l IH]; intros s; simpl; [done|].
  by rewrite Hfg, IH.
Qed.

Lemma Swap_app l1 l2 l3 x y (i j : nat) :
  i = length l1 → j = length l1 + S (length l2) →
  Swap (l1 ++ x :: l2 ++ y :: l3) i j = l1 ++ y :: l2 ++ x :: l3.
Proof.
  intros -> ->. unfold Swap.
  rewrite (lookup_app_r l1) by lia. rewrite Nat.sub_diag. simpl.
  rewrite (lookup_app_r l1) by lia.
  replace (length l1 + S (length l2) - length l1) with (S (length l2)) by lia.
  simpl. rewrite (lookup_app_r l2) by lia. rewrite Nat.sub_diag. simpl.
  rewrite (insert_app_r_alt l1) by lia. rewrite Nat.sub_diag. simpl.
  rewrite (insert_app_r_alt l1) by lia.
  replace (length l1 + S (length l2) - length l1) with (S (length l2)) by lia.
  simpl. rewrite (insert_app_r_alt l2) by lia. by rewrite Nat.sub_diag.
Qed.

Lemma Swap_comm s (i j : nat) : Swap s i j = Swap s j i.
Proof.
  unfold Swap. destruct (s !! i) as [x|] eqn:Hi, (s !! j) as [y|] eqn:Hj; try done.
  destruct (decide (i = j)) as [->|Hne].
  - by simplify_eq.
  - by rewrite list_insert_insert_ne.
Qed.

Lemma Swap_adjacent l1 l2 x y (i : nat) :
  i = length l1 →
  Swap (l1 ++ x :: y :: l2) i (S i) = l1 ++ y :: x :: l2.
Proof.
  intros ->. apply (Swap_app l1 [] l2); simpl; lia.
Qed.

(** [swapRange_func] exchanges two blocks of equal length. *)
Lemma swapRange_blocks (n : nat) : ∀ pre P mid Q post (a b : nat),
  length P = n → length Q = n →
  a = length pre → b = length pre + n + length mid →
  swapRange_func (pre ++ P ++ mid ++ Q ++ post) a b n =
    pre ++ Q ++ mid ++ P ++ post.
Proof.
  unfold swapRange_func. induction n as [|n IH];
    intros pre P mid Q post a b HP HQ -> ->.
  - destruct P, Q; try done.
  - destruct P as [|p P]; [done|]. destruct Q as [|q Q]; [done|].
    simpl in HP, HQ. simpl seq. simpl foldl.
    rewrite <- fmap_S_seq, foldl_fmap.
    rewrite !Nat.add_0_r.
    assert (Swap (pre ++ p :: P ++ mid ++ q :: Q ++ post) (length pre)
                 (length pre + S n + length mid) =
            (pre ++ [q]) ++ P ++ (mid ++ [p]) ++ Q ++ post) as ->.
    { rewrite (app_assoc P mid).
      rewrite (Swap_app pre (P ++ mid)); [|done|rewrite length_app; lia].
      by rewrite <- !app_assoc. }
    rewrite (foldl_ext _ (λ s i, Swap s (length (pre ++ [q]) + i)
               (length (pre ++ [q]) + n + length (mid ++ [p]) + i))).
    + rewrite (IH (pre ++ [q]) P (mid ++ [p]) Q post); [|lia|lia|done|done].
      by rewrite <- !app_assoc.
    + intros s i. rewrite !length_app. simpl. f_equal; lia.
Qed.

(** [rotate_func] exchanges two neighbouring non-empty blocks. *)
Lemma rotate_loop_spec (fuel : nat) : ∀ pre U V post (m i j : nat),
  i = length U → j = length V → m = length pre + length U →
  0 < i → 0 < j → i + j ≤ fuel →
  ∀ s' i', rotate_loop fuel (pre ++ U ++ V ++ post) m i j = (s', i') →
  swapRange_func s' (m - i') m i' = pre ++ V ++ U ++ post.
Proof.
  induction fuel as [|fuel IH]; intros pre U V post m i j Hi Hj Hm Hi0 Hj0 Hfuel s' i';
    [lia|].
  simpl. case_bool_decide as Hne.
  - case_bool_decide as Hlt.
    + rewrite <- (take_drop j U).
      set (U1 := take j U). set (U2 := drop j U).
      assert (length U1 = j) as HU1 by (unfold U1; rewrite length_take; lia).
      assert (length U2 = i - j) as HU2 by (unfold U2; rewrite length_drop; lia).
      rewrite <- (app_assoc U1 U2).
      rewrite (swapRange_blocks j pre U1 U2 V post); [|done|done|lia|lia].
      intros Hloop.
      replace (pre ++ V ++ U2 ++ U1 ++ post)
        with ((pre ++ V) ++ U2 ++ U1 ++ post) in Hloop
        by (by rewrite <- !app_assoc).
      eapply IH in Hloop; [|done|done|rewrite length_app; lia|lia|lia|lia].
      rewrite Hloop. by rewrite <- !app_assoc.
    + rewrite <- (take_drop (j - i) V).
      set (V1 := take (j - i) V). set (V2 := drop (j - i) V).
      assert (length V1 = j - i) as HV1 by (unfold V1; rewrite length_take; lia).
      assert (length V2 = i) as HV2 by (unfold V2; rewrite length_drop; lia).
      rewrite <- (app_assoc V1 V2).
      rewrite (swapRange_blocks i pre U V1 V2 post); [|done|done|lia|lia].
      intros Hloop.
      replace (pre ++ V2 ++ V1 ++ U ++ post)
        with (pre ++ V2 ++ V1 ++ (U ++ post)) in Hloop by done.
      eapply IH in Hloop; [|done|done|lia|lia|lia|lia].
      rewrite Hloop. by rewrite <- !app_assoc.
  - intros [= <- <-].
    replace (pre ++ U ++ V ++ post) with (pre ++ U ++ [] ++ V ++ post) by done.
    rewrite (swapRange_blocks i pre U [] V post); [done|done|lia|lia|simpl; lia].
Qed.

Lemma rotate_func_spec pre U V post (a m b : nat) :
  a = length pre → m = a + length U → b = m + length V →
  0 < length U → 0 < length V →
  rotate_func (pre ++ U ++ V ++ post) a m b = pre ++ V ++ U ++ post.
Proof.
  intros -> -> -> HU HV. unfold rotate_func.
  destruct (rotate_loop _ _ _ _ _) as [s' i'] eqn:Hloop.
  eapply rotate_loop_spec in Hloop; [done| | |done| | |done]; lia.
Qed.
End SwapFacts.

(** ** Orders and stability *)

Section OrderFacts.
Local Open Scope nat_scope.
Context {A : Type} (cmp : A → A → bool).
Implicit Types (s l : list A) (x y z : A).

Lemma occurs_before_app l1 l2 x y :
  occurs_before (l1 ++ l2) x y ↔
    occurs_before l1 x y ∨ occurs_before l2 x y ∨ (x ∈ l1 ∧ y ∈ l2).
Proof.
  unfold occurs_before. split.
  - intros (i & j & Hij & Hi & Hj).
    destruct (decide (j < length l1)) as [Hj1|Hj1].
    + left. exists i, j. rewrite lookup_app_l in Hi, Hj by lia. done.
    + rewrite lookup_app_r in Hj by lia.
      destruct (decide (i < length l1)) as [Hi1|Hi1].
      * right; right. rewrite lookup_app_l in Hi by lia.
        split; eapply list_elem_of_lookup_2; done.
      * right; left. rewrite lookup_app_r in Hi by lia.
        exists (i - length l1), (j - length l1). split_and!; [lia|done..].
  - intros [(i & j & Hij & Hi & Hj)|[(i & j & Hij & Hi & Hj)|[Hx Hy]]].
    + exists i, j. split_and!; [done|by apply lookup_app_l_Some..].
    + exists (length l1 + i), (length l1 + j).
      rewrite !lookup_app_r by lia.
      replace (length l1 + i - length l1) with i by lia.
      replace (length l1 + j - length l1) with j by lia.
      split_and!; [lia|done..].
    + apply list_elem_of_lookup_1 in Hx as [i Hi].
      apply list_elem_of_lookup_1 in Hy as [j Hj].
      exists i, (length l1 + j).
      pose proof (lookup_lt_Some _ _ _ Hi).
      rewrite lookup_app_l, lookup_app_r by lia.
      replace (length l1 + j - length l1) with j by lia.
      split_and!; [lia|done..].
Qed.

Lemma occurs_before_elem_of l x y :
  occurs_before l x y → x ∈ l ∧ y ∈ l.
Proof.
  intros (i & j & _ & Hi & Hj). split; eapply list_elem_of_lookup_2; done.
Qed.

Lemma stable_step_refl l : stable_step cmp l l.
Proof. split; [done|auto]. Qed.

Lemma stable_step_trans l1 l2 l3 :
  stable_step cmp l1 l2 → stable_step cmp l2 l3 → stable_step cmp l1 l3.
Proof.
  intros [Hp1 Hs1] [Hp2 Hs2]. split; [by etrans|]. auto.
Qed.

Lemma stable_step_app l1 l1' l2 l2' :
  stable_step cmp l1 l1' → stable_step cmp l2 l2' → stable_step cmp (l1 ++ l2) (l1' ++ l2').
Proof.
  intros [Hp1 Hs1] [Hp2 Hs2]. split; [by rewrite Hp1, Hp2|].
  intros x y Hxy. rewrite !occurs_before_app.
  intros [?|[?|[Hx Hy]]]; [by left; auto|by right; left; auto|].
  right; right. by rewrite <- Hp1, <- Hp2.
Qed.

Lemma stable_step_length l l' : stable_step cmp l l' → length l' = length l.
Proof. intros [Hp _]. by rewrite Hp. Qed.

(** Two neighbouring blocks may change places when no element of one
    is equivalent to an element of the other. *)
Lemma stable_step_exchange X Y :
  (∀ x y, x ∈ X → y ∈ Y → cmp y x = true) →
  stable_step cmp (X ++ Y) (Y ++ X).
Proof.
  intros Hlt. split; [apply Permutation_app_comm|].
  intros x y [Hxy Hyx]. rewrite !occurs_before_app.
  intros [?|[?|[Hx Hy]]]; [by right; left|by left|].
  rewrite (Hlt x y Hx Hy) in Hyx. done.
Qed.

Section Swo.
Context (Hswo : StrictWeakOrder cmp).

Lemma cmp_asym x y : cmp x y = true → cmp y x = false.
Proof.
  intros Hxy. destruct (cmp y x) eqn:Hyx; [|done].
  pose proof (swo_trans _ Hswo _ _ _ Hxy Hyx) as Hxx.
  by rewrite (swo_irrefl _ Hswo) in Hxx.
Qed.

Lemma le_by_refl x : le_by cmp x x.
Proof. apply (swo_irrefl _ Hswo). Qed.

Lemma le_by_trans x y z : le_by cmp x y → le_by cmp y z → le_by cmp x z.
Proof.
  unfold le_by. intros Hyx Hzy.
  destruct (cmp z x) eqn:Hzx; [|done]. exfalso.
  destruct (cmp y z) eqn:Hyz.
  { pose proof (swo_trans _ Hswo _ _ _ Hyz Hzx). congruence. }
  destruct (cmp x y) eqn:Hxy.
  { pose proof (swo_trans _ Hswo _ _ _ Hzx Hxy). congruence. }
  destruct (swo_equiv_trans _ Hswo x y z) as [_ ?]; [by split..|congruence].
Qed.

Lemma lt_of_lt_le x y z : cmp x y = true → le_by cmp y z → cmp x z = true.
Proof.
  intros Hxy Hyz. destruct (cmp x z) eqn:Hxz; [done|]. exfalso.
  (* z <= x and y <= z give y <= x *)
  pose proof (le_by_trans y z x Hyz Hxz) as Hle.
  unfold le_by in Hle. congruence.
Qed.

Lemma lt_of_le_lt x y z : le_by cmp x y → cmp y z = true → cmp x z = true.
Proof.
  intros Hxy Hyz. destruct (cmp x z) eqn:Hxz; [done|]. exfalso.
  pose proof (le_by_trans z x y Hxz Hxy) as Hle.
  unfold le_by in Hle. congruence.
Qed.

Lemma le_of_lt x y : cmp x y = true → le_by cmp x y.
Proof. apply cmp_asym. Qed.
End Swo.
End OrderFacts.

(** ** [sort.SliceStable]: insertion sort *)

Section InsertionSort.
Local Open Scope nat_scope.
Context {A : Type} (cmp : A → A → bool).
Implicit Types (s pre post P R S : list A) (x y : A).

Lemma Less_lookup s (i j : nat) x y :
  s !! i = Some x → s !! j = Some y → Less cmp s i j = cmp x y.
Proof. unfold Less. by intros -> ->. Qed.

(** The inner loop walks [x] to the left past every element it is
    less than and stops at the first one it is not less than. *)
Lemma insertionSort_inner_spec pre P : ∀ x post (a j : nat),
  a = length pre → j = a + length P →
  ∃ P1 P2, P = P1 ++ P2 ∧
    insertionSort_inner cmp a j (pre ++ P ++ x :: post) =
      pre ++ P1 ++ x :: P2 ++ post ∧
    (∀ y, y ∈ P2 → cmp x y = true) ∧
    (∀ y, last P1 = Some y → cmp x y = false).
Proof.
  induction P as [|y P IH] using rev_ind; intros x post a j -> ->.
  - exists [], []. split_and!; [done| |by intros ? ?%elem_of_nil|done].
    simpl. rewrite Nat.add_0_r. destruct (length pre) as [|n]; [done|].
    simpl. rewrite bool_decide_eq_false_2 by lia. done.
  - rewrite length_app. simpl.
    replace (length pre + (length P + 1)) with (S (length pre + length P)) by lia.
    simpl. rewrite bool_decide_eq_true_2 by lia. simpl.
    assert ((pre ++ (P ++ [y]) ++ x :: post) = (pre ++ P) ++ y :: x :: post) as Hs
      by (by rewrite <- !app_assoc).
    rewrite Hs.
    rewrite (Less_lookup _ _ _ x y).
    2:{ rewrite lookup_app_r by (rewrite length_app; lia).
        rewrite length_app.
        by replace (S (length pre + length P) - (length pre + length P)) with 1 by lia. }
    2:{ rewrite lookup_app_r by (rewrite length_app; lia).
        by rewrite length_app, Nat.sub_diag. }
    destruct (cmp x y) eqn:Hxy.
    + rewrite Swap_comm, Swap_adjacent by (by rewrite length_app).
      rewrite <- app_assoc.
      destruct (IH x (y :: post) (length pre) (length pre + length P))
        as (P1 & P2 & -> & Hres & Hgt & Hlast); [done..|].
      exists P1, (P2 ++ [y]). split_and!.
      * by rewrite app_assoc.
      * rewrite Hres. by rewrite <- !app_assoc.
      * intros z [Hz| ->%list_elem_of_singleton]%elem_of_app; auto.
      * done.
    + exists (P ++ [y]), []. split_and!.
      * by rewrite app_nil_r.
      * by rewrite <- !app_assoc.
      * by intros ? ?%elem_of_nil.
      * intros z. rewrite last_snoc. by intros [= <-].
Qed.

Context (Hswo : StrictWeakOrder cmp).

Lemma sorted_insert P1 P2 x :
  StronglySorted (le_by cmp) (P1 ++ P2) →
  (∀ y, y ∈ P2 → cmp x y = true) →
  (∀ y, last P1 = Some y → cmp x y = false) →
  StronglySorted (le_by cmp) (P1 ++ x :: P2).
Proof.
  intros (Hcross & HP1 & HP2)%StronglySorted_app Hgt Hlast.
  apply StronglySorted_app_2; [|done|].
  - intros u v Hu [->|Hv]%elem_of_cons; [|by apply Hcross].
    destruct P1 as [|p P1 _] using rev_ind; [by apply elem_of_nil in Hu|].
    assert (le_by cmp p x) as Hpx by (apply Hlast, last_snoc).
    apply elem_of_app in Hu as [Hu| ->%list_elem_of_singleton]; [|done].
    apply (le_by_trans cmp Hswo u p x); [|done].
    apply StronglySorted_app in HP1 as (Hc & _ & _).
    apply Hc; [done|]. by apply list_elem_of_singleton.
  - constructor; [done|]. apply Forall_forall. intros v Hv.
    by apply (cmp_asym cmp Hswo), Hgt.
Qed.

Lemma insertionSort_loop_spec pre R : ∀ S post (a : nat),
  a = length pre → StronglySorted (le_by cmp) S →
  ∃ S', foldl (λ s i, insertionSort_inner cmp a i s) (pre ++ S ++ R ++ post)
              (seq (a + length S) (length R)) = pre ++ S' ++ post ∧
    StronglySorted (le_by cmp) S' ∧ stable_step cmp (S ++ R) S'.
Proof.
  induction R as [|x R IH]; intros S post a -> HS.
  - exists S. simpl. rewrite app_nil_r. split_and!; [done..|apply stable_step_refl].
  - simpl.
    destruct (insertionSort_inner_spec pre S x (R ++ post) (length pre)
                (length pre + length S)) as (P1 & P2 & -> & Hres & Hgt & Hlast);
      [done..|].
    rewrite Hres.
    destruct (IH (P1 ++ x :: P2) post (length pre)) as (S' & Hfold & HS' & Hstep);
      [done|by apply sorted_insert|].
    exists S'. split_and!; [|done|].
    + rewrite <- Hfold. rewrite <- !app_assoc. simpl.
      do 2 f_equal. rewrite !length_app. simpl. lia.
    + eapply stable_step_trans; [|exact Hstep].
      replace ((P1 ++ P2) ++ x :: R) with (P1 ++ (P2 ++ [x]) ++ R)
        by (by rewrite <- !app_assoc).
      replace ((P1 ++ x :: P2) ++ R) with (P1 ++ ([x] ++ P2) ++ R)
        by (by rewrite <- !app_assoc).
      apply stable_step_app; [apply stable_step_refl|].
      apply stable_step_app; [|apply stable_step_refl].
      apply stable_step_exchange.
      intros u v Hu ->%list_elem_of_singleton. by apply Hgt.
Qed.

(** [insertionSort_func] sorts the block [a, b) and keeps equivalent
    elements in their order. *)
Lemma insertionSort_func_spec pre B post (a b : nat) :
  a = length pre → b = a + length B →
  ∃ B', insertionSort_func cmp (pre ++ B ++ post) a b = pre ++ B' ++ post ∧
    StronglySorted (le_by cmp) B' ∧ stable_step cmp B B'.
Proof.
  intros -> ->. unfold insertionSort_func. destruct B as [|x R].
  - exists []. replace (length pre + length [] - (length pre + 1)) with 0
      by (simpl; lia).
    split_and!; [done|constructor|apply stable_step_refl].
  - replace (length pre + length (x :: R) - (length pre + 1)) with (length R)
      by (simpl; lia).
    destruct (insertionSort_loop_spec pre R [x] post (length pre))
      as (S' & Hfold & HS' & Hstep); [done|repeat constructor|].
    exists S'. split_and!; [|done..]. by rewrite <- Hfold.
Qed.
End InsertionSort.

(** ** [sort.SliceStable]: binary search and the in-place merge *)

Section BinarySearch.
Local Open Scope nat_scope.

Lemma half_bounds (i j : nat) : i < j → i ≤ (i + j) / 2 < j.
Proof.
  intros Hij. pose proof (Nat.div_mod_eq (i + j) 2) as Hdm.
  pose proof (Nat.mod_upper_bound (i + j) 2). lia.
Qed.

Lemma half_double (a b : nat) : 2 * ((a + b) / 2) ≤ a + b ≤ 2 * ((a + b) / 2) + 1.
Proof.
  pose proof (Nat.div_mod_eq (a + b) 2) as Hdm.
  pose proof (Nat.mod_upper_bound (a + b) 2). lia.
Qed.

(** Whatever [cond] is, the search stops between an index where it
    holds and one where it fails. *)
Lemma bsearch_spec (cond : nat → bool) (fuel : nat) : ∀ i j : nat,
  i ≤ j → j - i ≤ fuel →
  i ≤ bsearch fuel cond i j ≤ j ∧
  (i < bsearch fuel cond i j → cond (bsearch fuel cond i j - 1) = true) ∧
  (bsearch fuel cond i j < j → cond (bsearch fuel cond i j) = false).
Proof.
  induction fuel as [|fuel IH]; intros i j Hij Hfuel; cbn [bsearch].
  - split_and!; [lia|lia|lia|lia].
  - case_bool_decide as Hlt; [|split_and!; lia].
    pose proof (half_bounds i j Hlt) as Hh.
    set (h := (i + j) / 2) in *.
    destruct (cond h) eqn:Hc.
    + destruct (IH (h + 1) j) as (Hr & Hlo & Hhi); [lia|lia|].
      set (r := bsearch fuel cond (h + 1) j) in *.
      split_and!; [lia|lia| |done].
      intros _. destruct (decide (r = h + 1)) as [->|Hne].
      * by replace (h + 1 - 1) with h by lia.
      * apply Hlo. lia.
    + destruct (IH i h) as (Hr & Hlo & Hhi); [lia|lia|].
      set (r := bsearch fuel cond i h) in *.
      split_and!; [lia|lia|done|].
      intros _. destruct (decide (r = h)) as [->|Hne]; [done|].
      apply Hhi. lia.
Qed.
End BinarySearch.

Section SymMerge.
Local Open Scope nat_scope.
Context {A : Type} (cmp : A → A → bool).
Implicit Types (s pre post X Y : list A) (x y : A).

(** Walking one element to the right over a block, and to the left. *)
Lemma walk_right Y1 : ∀ pre x post,
  foldl (λ s k, Swap s k (k + 1)) (pre ++ x :: Y1 ++ post)
        (seq (length pre) (length Y1)) = pre ++ Y1 ++ x :: post.
Proof.
  induction Y1 as [|y Y1 IH]; intros pre x post; simpl; [done|].
  rewrite Nat.add_1_r, Swap_adjacent by done.
  specialize (IH (pre ++ [y]) x post).
  rewrite length_app, Nat.add_1_r in IH. simpl in IH.
  rewrite <- !app_assoc in IH. exact IH.
Qed.

Lemma walk_left X2 : ∀ pre y post,
  foldl (λ s k, Swap s k (k - 1)) (pre ++ X2 ++ y :: post)
        (rev (seq (length pre + 1) (length X2))) = pre ++ y :: X2 ++ post.
Proof.
  induction X2 as [|x X2 IH] using rev_ind; intros pre y post; simpl; [done|].
  rewrite length_app. simpl. rewrite seq_app, rev_app_distr. simpl.
  replace (length pre + 1 + length X2 - 1) with (length pre + length X2) by lia.
  replace (length pre + 1 + length X2) with (S (length pre + length X2)) by lia.
  rewrite Swap_comm.
  replace (pre ++ (X2 ++ [x]) ++ y :: post) with ((pre ++ X2) ++ x :: y :: post)
    by (by rewrite <- !app_assoc).
  rewrite Swap_adjacent by (by rewrite length_app).
  rewrite <- !app_assoc.
  by rewrite (IH pre y (x :: post)).
Qed.

Context (Hswo : StrictWeakOrder cmp).

Lemma sorted_lookup_le l (i j : nat) u v :
  StronglySorted (le_by cmp) l → i ≤ j →
  l !! i = Some u → l !! j = Some v → le_by cmp u v.
Proof.
  intros Hl Hij Hi Hj. destruct (decide (i = j)) as [->|Hne].
  - simplify_eq. by apply le_by_refl.
  - rewrite <- (take_drop j l) in Hl.
    apply (StronglySorted_app_1_elem_of _ _ _ u v) in Hl; [done| |].
    + apply elem_of_take. exists i. split; [done|lia].
    + apply (list_elem_of_lookup_2 _ 0). by rewrite lookup_drop, Nat.add_0_r.
Qed.

Lemma sorted_take l (k : nat) :
  StronglySorted (le_by cmp) l → StronglySorted (le_by cmp) (take k l).
Proof. rewrite <- (take_drop k l) at 1. apply StronglySorted_app_1_l. Qed.

Lemma sorted_drop l (k : nat) :
  StronglySorted (le_by cmp) l → StronglySorted (le_by cmp) (drop k l).
Proof. rewrite <- (take_drop k l) at 1. apply StronglySorted_app_1_r. Qed.

Lemma lookup_block pre B post (c : nat) :
  length pre ≤ c → c < length pre + length B →
  (pre ++ B ++ post) !! c = B !! (c - length pre).
Proof.
  intros Hlo Hhi. rewrite lookup_app_r by lia. by rewrite lookup_app_l by lia.
Qed.

(** [symMerge_func] when the left block is a single element. *)
Lemma symMerge_single_left pre x Y post (a m b : nat) :
  a = length pre → m = a + 1 → b = m + length Y →
  StronglySorted (le_by cmp) Y →
  ∃ M,
    foldl (λ s k, Swap s k (k + 1)) (pre ++ [x] ++ Y ++ post)
      (seq a (bsearch (b - m) (λ h, Less cmp (pre ++ [x] ++ Y ++ post) h a) m b
              - 1 - a)) = pre ++ M ++ post ∧
    StronglySorted (le_by cmp) M ∧ stable_step cmp ([x] ++ Y) M.
Proof.
  intros Ha Hm Hb HY. set (s := pre ++ [x] ++ Y ++ post).
  destruct (bsearch_spec (λ h, Less cmp s h a) (b - m) m b) as (Hr & Hlo & Hhi);
    [lia|lia|].
  set (i := bsearch (b - m) (λ h, Less cmp s h a) m b) in *.
  assert (s !! a = Some x) as Hsa.
  { unfold s. rewrite lookup_app_r by lia. by rewrite Ha, Nat.sub_diag. }
  assert (∀ h, m ≤ h → h < b → s !! h = Y !! (h - m)) as HsY.
  { intros h ? ?. unfold s. rewrite app_assoc.
    rewrite (lookup_block (pre ++ [x]) Y post); rewrite ?length_app; simpl; [|lia..].
    f_equal. lia. }
  set (Y1 := take (i - m) Y). set (Y2 := drop (i - m) Y).
  assert (length Y1 = i - m) as HlY1 by (unfold Y1; rewrite length_take; lia).
  assert (∀ y, y ∈ Y1 → cmp y x = true) as HY1.
  { intros y (k & Hk & Hki)%elem_of_take.
    assert (is_Some (Y !! (i - 1 - m))) as [yl Hyl]
      by (apply lookup_lt_is_Some; lia).
    apply (lt_of_le_lt cmp Hswo y yl x).
    - apply (sorted_lookup_le Y k (i - 1 - m)); [done|lia|done..].
    - rewrite <- Hlo by lia. symmetry. apply Less_lookup; [|done].
      rewrite HsY by lia. done. }
  assert (∀ y, y ∈ Y2 → le_by cmp x y) as HY2.
  { intros y (k & Hk)%list_elem_of_lookup_1. unfold Y2 in Hk.
    rewrite lookup_drop in Hk. pose proof (lookup_lt_Some _ _ _ Hk).
    assert (is_Some (Y !! (i - m))) as [yh Hyh]
      by (apply lookup_lt_is_Some; lia).
    apply (le_by_trans cmp Hswo x yh y).
    - unfold le_by. rewrite <- Hhi by lia. symmetry. apply Less_lookup; [|done].
      rewrite HsY by lia. done.
    - apply (sorted_lookup_le Y (i - m) (i - m + k)); [done|lia|done..]. }
  exists (Y1 ++ x :: Y2). split_and!.
  - replace (i - 1 - a) with (length Y1) by lia. rewrite Ha.
    unfold s. rewrite <- (take_drop (i - m) Y). fold Y1 Y2.
    simpl. rewrite <- !app_assoc. apply walk_right.
  - apply StronglySorted_app_2.
    + intros u v Hu [->|Hv]%elem_of_cons.
      * by apply (le_of_lt cmp Hswo), HY1.
      * rewrite <- (take_drop (i - m) Y) in HY.
        by apply (StronglySorted_app_1_elem_of _ _ _ u v) in HY.
    + by apply sorted_take.
    + constructor; [by apply sorted_drop|]. by apply Forall_forall.
  - rewrite <- (take_drop (i - m) Y) at 1. fold Y1 Y2.
    replace ([x] ++ Y1 ++ Y2) with (([x] ++ Y1) ++ Y2) by (by rewrite <- app_assoc).
    replace (Y1 ++ x :: Y2) with ((Y1 ++ [x]) ++ Y2) by (by rewrite <- app_assoc).
    apply stable_step_app; [|apply stable_step_refl].
    apply stable_step_exchange.
    intros u v ->%list_elem_of_singleton Hv. by apply HY1.
Qed.

(** [symMerge_func] when the right block is a single element. *)
Lemma symMerge_single_right pre X y post (a m b : nat) :
  a = length pre → m = a + length X → b = m + 1 →
  StronglySorted (le_by cmp) X →
  ∃ M,
    foldl (λ s k, Swap s k (k - 1)) (pre ++ X ++ [y] ++ post)
      (rev (seq (bsearch (m - a)
                   (λ h, negb (Less cmp (pre ++ X ++ [y] ++ post) m h)) a m + 1)
                (m - bsearch (m - a)
                   (λ h, negb (Less cmp (pre ++ X ++ [y] ++ post) m h)) a m))) =
      pre ++ M ++ post ∧
    StronglySorted (le_by cmp) M ∧ stable_step cmp (X ++ [y]) M.
Proof.
  intros Ha Hm Hb HX. set (s := pre ++ X ++ [y] ++ post).
  destruct (bsearch_spec (λ h, negb (Less cmp s m h)) (m - a) a m)
    as (Hr & Hlo & Hhi); [lia|lia|].
  set (i := bsearch (m - a) (λ h, negb (Less cmp s m h)) a m) in *.
  assert (s !! m = Some y) as Hsm.
  { unfold s. rewrite app_assoc, lookup_app_r by (rewrite length_app; lia).
    rewrite length_app. by replace (m - (length pre + length X)) with 0 by lia. }
  assert (∀ h, a ≤ h → h < m → s !! h = X !! (h - a)) as HsX.
  { intros h ? ?. unfold s. rewrite lookup_block by lia. f_equal. lia. }
  set (X1 := take (i - a) X). set (X2 := drop (i - a) X).
  assert (length X1 = i - a) as HlX1 by (unfold X1; rewrite length_take; lia).
  assert (length X2 = m - i) as HlX2 by (unfold X2; rewrite length_drop; lia).
  assert (∀ z, last X1 = Some z → cmp y z = false) as HX1.
  { intros z Hz. rewrite last_lookup, HlX1 in Hz. unfold X1 in Hz.
    destruct (decide (i = a)) as [->|Hne].
    { by rewrite Nat.sub_diag, take_0 in Hz. }
    rewrite lookup_take_lt in Hz by lia.
    apply negb_true_iff. rewrite <- Hlo by lia. f_equal. symmetry.
    apply Less_lookup; [done|]. rewrite HsX by lia. rewrite <- Hz. f_equal. lia. }
  assert (∀ v, v ∈ X2 → cmp y v = true) as HX2.
  { intros v (k & Hk)%list_elem_of_lookup_1. unfold X2 in Hk.
    rewrite lookup_drop in Hk. pose proof (lookup_lt_Some _ _ _ Hk).
    assert (is_Some (X !! (i - a))) as [xh Hxh]
      by (apply lookup_lt_is_Some; lia).
    apply (lt_of_lt_le cmp Hswo y xh v).
    - apply negb_false_iff. rewrite <- Hhi by lia. f_equal. symmetry.
      apply Less_lookup; [done|]. rewrite HsX by lia. done.
    - apply (sorted_lookup_le X (i - a) (i - a + k)); [done|lia|done..]. }
  exists (X1 ++ y :: X2). split_and!.
  - unfold s. rewrite <- (take_drop (i - a) X). fold X1 X2.
    replace (pre ++ (X1 ++ X2) ++ [y] ++ post)
      with ((pre ++ X1) ++ X2 ++ y :: post) by (by rewrite <- !app_assoc).
    replace (i + 1) with (length (pre ++ X1) + 1) by (rewrite length_app; lia).
    rewrite <- HlX2, walk_left. by rewrite <- !app_assoc.
  - apply sorted_insert; [done| |done..]. unfold X1, X2. by rewrite take_drop.
  - rewrite <- (take_drop (i - a) X) at 1. fold X1 X2.
    rewrite <- app_assoc.
    apply stable_step_app; [apply stable_step_refl|].
    apply (stable_step_exchange cmp X2 [y]).
    intros u v Hu ->%list_elem_of_singleton. by apply HX2.
Qed.

(** The split point that the general case of [symMerge_func] finds:
    the left block is cut at [st] and the right block at [en], so that
    the two inner parts can change places. *)
Lemma symMerge_split pre X Y post (a m b start0 r0 : nat) :
  a = length pre → m = a + length X → b = m + length Y →
  1 ≤ length X → 1 ≤ length Y →
  StronglySorted (le_by cmp) X → StronglySorted (le_by cmp) Y →
  (start0, r0) =
    (if bool_decide ((a + b) / 2 < m)
     then ((a + b) / 2 + m - b, (a + b) / 2) else (a, m)) →
  ∀ st en,
    st = bsearch (r0 - start0)
           (λ c, negb (Less cmp (pre ++ X ++ Y ++ post) ((a + b) / 2 + m - 1 - c) c))
           start0 r0 →
    en = (a + b) / 2 + m - st →
    a ≤ st ≤ m ∧ st ≤ (a + b) / 2 ∧ m ≤ en ≤ b ∧ a < (a + b) / 2 < b ∧
    st + en = (a + b) / 2 + m ∧
    (∀ u v, u ∈ take (st - a) X → v ∈ drop (en - m) Y → le_by cmp u v) ∧
    (∀ u v, u ∈ drop (st - a) X → v ∈ take (en - m) Y → cmp v u = true).
Proof.
  intros Ha Hm Hb HlX HlY HX HY Hsr st en Hst Hen.
  pose proof (half_double a b) as Hhalf.
  set (mid := (a + b) / 2) in *.
  set (s := pre ++ X ++ Y ++ post) in *.
  assert (a ≤ start0 ∧ mid + m - b ≤ start0 ∧ start0 ≤ r0 ∧ r0 ≤ mid ∧ r0 ≤ m ∧
          (start0 = a ∨ start0 = mid + m - b) ∧ (r0 = mid ∨ r0 = m)) as Hbounds.
  { case_bool_decide; simplify_eq; lia. }
  destruct (bsearch_spec (λ c, negb (Less cmp s (mid + m - 1 - c) c))
              (r0 - start0) start0 r0) as (Hr & Hlo & Hhi); [lia|lia|].
  rewrite <- Hst in Hr, Hlo, Hhi.
  assert (∀ c, a ≤ c → c < m → s !! c = X !! (c - a)) as HsX.
  { intros c ? ?. unfold s. rewrite lookup_block by lia. f_equal. lia. }
  assert (∀ h, m ≤ h → h < b → s !! h = Y !! (h - m)) as HsY.
  { intros h ? ?. unfold s. rewrite app_assoc.
    rewrite (lookup_block (pre ++ X) Y post); rewrite ?length_app; [|lia..].
    f_equal. lia. }
  split_and!; [lia..| |].
  - intros u v (k & Hk & Hlt)%elem_of_take (k' & Hk')%list_elem_of_lookup_1.
    rewrite lookup_drop in Hk'. pose proof (lookup_lt_Some _ _ _ Hk').
    assert (is_Some (X !! (st - 1 - a))) as [xl Hxl]
      by (apply lookup_lt_is_Some; lia).
    assert (is_Some (Y !! (en - m))) as [yh Hyh]
      by (apply lookup_lt_is_Some; lia).
    apply (le_by_trans cmp Hswo u xl v).
    { apply (sorted_lookup_le X k (st - 1 - a)); [done|lia|done..]. }
    apply (le_by_trans cmp Hswo xl yh v).
    + unfold le_by. apply negb_true_iff. rewrite <- Hlo by lia. f_equal.
      symmetry. apply Less_lookup.
      * rewrite HsY by lia. rewrite <- Hyh. f_equal. lia.
      * rewrite HsX by lia. done.
    + apply (sorted_lookup_le Y (en - m) (en - m + k')); [done|lia|done..].
  - intros u v (k & Hk)%list_elem_of_lookup_1 (k' & Hk' & Hlt)%elem_of_take.
    rewrite lookup_drop in Hk. pose proof (lookup_lt_Some _ _ _ Hk).
    assert (is_Some (X !! (st - a))) as [xh Hxh]
      by (apply lookup_lt_is_Some; lia).
    assert (is_Some (Y !! (en - 1 - m))) as [yl Hyl]
      by (apply lookup_lt_is_Some; lia).
    apply (lt_of_lt_le cmp Hswo v xh u).
    2:{ apply (sorted_lookup_le X (st - a) (st - a + k)); [done|lia|done..]. }
    apply (lt_of_le_lt cmp Hswo v yl xh).
    { apply (sorted_lookup_le Y k' (en - 1 - m)); [done|lia|done..]. }
    apply negb_false_iff. rewrite <- Hhi by lia. f_equal.
    symmetry. apply Less_lookup.
    + rewrite HsY by lia. rewrite <- Hyl. f_equal. lia.
    + rewrite HsX by lia. done.
Qed.

Lemma nil_or_sorted_app X Y :
  StronglySorted (le_by cmp) X → StronglySorted (le_by cmp) Y →
  length X = 0 ∨ length Y = 0 → StronglySorted (le_by cmp) (X ++ Y).
Proof.
  intros HX HY [->%nil_length_inv| ->%nil_length_inv]; [done|].
  by rewrite app_nil_r.
Qed.

(** [symMerge_func] merges two neighbouring sorted blocks in place and
    keeps equivalent elements in their order. *)
Lemma symMerge_fuel_spec (fuel : nat) : ∀ pre X Y post (a m b : nat),
  a = length pre → m = a + length X → b = m + length Y →
  1 ≤ length X → 1 ≤ length Y → length X + length Y ≤ fuel →
  StronglySorted (le_by cmp) X → StronglySorted (le_by cmp) Y →
  ∃ M, symMerge_fuel cmp fuel (pre ++ X ++ Y ++ post) a m b = pre ++ M ++ post ∧
    StronglySorted (le_by cmp) M ∧ stable_step cmp (X ++ Y) M.
Proof.
  induction fuel as [|fuel IH]; intros pre X Y post a m b Ha Hm Hb HlX HlY Hfuel HX HY;
    [lia|].
  cbn [symMerge_fuel].
  case_bool_decide as Hone.
  { destruct X as [|x [|? ?]]; simpl in *; try lia.
    by apply (symMerge_single_left pre x Y post a m b). }
  case_bool_decide as Hone'.
  { destruct Y as [|y [|? ?]]; simpl in *; try lia.
    by apply (symMerge_single_right pre X y post a m b). }
  set (s := pre ++ X ++ Y ++ post).
  set (mid := (a + b) / 2).
  destruct (if bool_decide (mid < m) then (mid + m - b, mid) else (a, m))
    as [start0 r0] eqn:Hsr.
  set (st := bsearch (r0 - start0)
               (λ c, negb (Less cmp s (mid + m - 1 - c) c)) start0 r0).
  set (en := mid + m - st).
  destruct (symMerge_split pre X Y post a m b start0 r0 Ha Hm Hb HlX HlY HX HY
              (eq_sym Hsr) st en eq_refl eq_refl)
    as (Hst & Hstmid & Hen & Hmid & Hsum & Hle & Hlt).
  fold mid in Hstmid, Hmid, Hsum.
  set (X1 := take (st - a) X) in *. set (X2 := drop (st - a) X) in *.
  set (Y1 := take (en - m) Y) in *. set (Y2 := drop (en - m) Y) in *.
  assert (length X1 = st - a) as HlX1 by (unfold X1; rewrite length_take; lia).
  assert (length X2 = m - st) as HlX2 by (unfold X2; rewrite length_drop; lia).
  assert (length Y1 = en - m) as HlY1 by (unfold Y1; rewrite length_take; lia).
  assert (length Y2 = b - en) as HlY2 by (unfold Y2; rewrite length_drop; lia).
  assert (X = X1 ++ X2) as HXs by (unfold X1, X2; by rewrite take_drop).
  assert (Y = Y1 ++ Y2) as HYs by (unfold Y1, Y2; by rewrite take_drop).
  assert (StronglySorted (le_by cmp) X1) as HX1 by (by apply sorted_take).
  assert (StronglySorted (le_by cmp) X2) as HX2 by (by apply sorted_drop).
  assert (StronglySorted (le_by cmp) Y1) as HY1 by (by apply sorted_take).
  assert (StronglySorted (le_by cmp) Y2) as HY2 by (by apply sorted_drop).
  (* the rotation *)
  assert ((if bool_decide (st < m ∧ m < en) then rotate_func s st m en else s) =
          pre ++ X1 ++ Y1 ++ X2 ++ Y2 ++ post) as ->.
  { unfold s. rewrite HXs, HYs.
    destruct (decide (st < m ∧ m < en)) as [Hrot|Hrot];
      [rewrite bool_decide_eq_true_2 by done|rewrite bool_decide_eq_false_2 by done].
    - replace (pre ++ (X1 ++ X2) ++ (Y1 ++ Y2) ++ post)
        with ((pre ++ X1) ++ X2 ++ Y1 ++ Y2 ++ post) by (by rewrite <- !app_assoc).
      rewrite rotate_func_spec; rewrite ?length_app; [|lia..].
      by rewrite <- !app_assoc.
    - assert (length X2 = 0 ∨ length Y1 = 0) as [->%nil_length_inv| ->%nil_length_inv]
        by lia.
      + by rewrite !app_nil_r, <- !app_assoc.
      + by rewrite <- !app_assoc. }
  (* the left half *)
  assert (∃ M1,
    (if bool_decide (a < st ∧ st < mid)
     then symMerge_fuel cmp fuel (pre ++ X1 ++ Y1 ++ X2 ++ Y2 ++ post) a st mid
     else pre ++ X1 ++ Y1 ++ X2 ++ Y2 ++ post) =
      pre ++ M1 ++ X2 ++ Y2 ++ post ∧
    StronglySorted (le_by cmp) M1 ∧ stable_step cmp (X1 ++ Y1) M1)
    as (M1 & -> & HM1 & Hstep1).
  { destruct (decide (a < st ∧ st < mid)) as [Hrec|Hrec];
      [rewrite bool_decide_eq_true_2 by done|rewrite bool_decide_eq_false_2 by done].
    - destruct (IH pre X1 Y1 (X2 ++ Y2 ++ post) a st mid) as (M1 & HM1 & ? & ?);
        [lia..|done|done|].
      exists M1. by rewrite HM1.
    - exists (X1 ++ Y1). split_and!.
      + by rewrite <- !app_assoc.
      + apply nil_or_sorted_app; [done..|lia].
      + apply stable_step_refl. }
  pose proof (stable_step_length _ _ _ Hstep1) as HlM1.
  rewrite length_app in HlM1.
  (* the right half *)
  assert (∃ M2,
    (if bool_decide (mid < en ∧ en < b)
     then symMerge_fuel cmp fuel (pre ++ M1 ++ X2 ++ Y2 ++ post) mid en b
     else pre ++ M1 ++ X2 ++ Y2 ++ post) =
      pre ++ M1 ++ M2 ++ post ∧
    StronglySorted (le_by cmp) M2 ∧ stable_step cmp (X2 ++ Y2) M2)
    as (M2 & -> & HM2 & Hstep2).
  { destruct (decide (mid < en ∧ en < b)) as [Hrec|Hrec];
      [rewrite bool_decide_eq_true_2 by done|rewrite bool_decide_eq_false_2 by done].
    - replace (pre ++ M1 ++ X2 ++ Y2 ++ post)
        with ((pre ++ M1) ++ X2 ++ Y2 ++ post) by (by rewrite <- !app_assoc).
      destruct (IH (pre ++ M1) X2 Y2 post mid en b) as (M2 & HM2 & ? & ?);
        rewrite ?length_app; [lia..|done|done|].
      exists M2. rewrite HM2. by rewrite <- !app_assoc.
    - exists (X2 ++ Y2). split_and!.
      + by rewrite <- !app_assoc.
      + apply nil_or_sorted_app; [done..|lia].
      + apply stable_step_refl. }
  exists (M1 ++ M2). split_and!.
  - by rewrite <- !app_assoc.
  - apply StronglySorted_app_2; [|done..].
    intros u v Hu Hv.
    destruct Hstep1 as [Hp1 _]. destruct Hstep2 as [Hp2 _].
    rewrite <- Hp1 in Hu. rewrite <- Hp2 in Hv.
    apply elem_of_app in Hu as [Hu|Hu]; apply elem_of_app in Hv as [Hv|Hv].
    + rewrite HXs in HX. by apply (StronglySorted_app_1_elem_of _ _ _ u v) in HX.
    + by apply Hle.
    + by apply (le_of_lt cmp Hswo), Hlt.
    + rewrite HYs in HY. by apply (StronglySorted_app_1_elem_of _ _ _ u v) in HY.
  - rewrite HXs, HYs.
    apply (stable_step_trans cmp _ ((X1 ++ Y1) ++ (X2 ++ Y2))).
    + replace ((X1 ++ X2) ++ Y1 ++ Y2) with (X1 ++ (X2 ++ Y1) ++ Y2)
        by (by rewrite <- !app_assoc).
      replace ((X1 ++ Y1) ++ X2 ++ Y2) with (X1 ++ (Y1 ++ X2) ++ Y2)
        by (by rewrite <- !app_assoc).
      apply stable_step_app; [apply stable_step_refl|].
      apply stable_step_app; [|apply stable_step_refl].
      apply stable_step_exchange. intros u v Hu Hv. by apply Hlt.
    + by apply stable_step_app.
Qed.

Lemma symMerge_func_spec pre X Y post (a m b : nat) :
  a = length pre → m = a + length X → b = m + length Y →
  1 ≤ length X → 1 ≤ length Y →
  StronglySorted (le_by cmp) X → StronglySorted (le_by cmp) Y →
  ∃ M, symMerge_func cmp (pre ++ X ++ Y ++ post) a m b = pre ++ M ++ post ∧
    StronglySorted (le_by cmp) M ∧ stable_step cmp (X ++ Y) M.
Proof.
  intros Ha Hm Hb HlX HlY HX HY. unfold symMerge_func.
  apply symMerge_fuel_spec; try done. lia.
Qed.
End SymMerge.

(** ** [sort.SliceStable]: the block loop and the merge rounds *)

Section StableFunc.
Local Open Scope nat_scope.
Context {A : Type} (cmp : A → A → bool) (Hswo : StrictWeakOrder cmp).
Implicit Types (s pre post rest X Y : list A) (x y : A).

Lemma blocks_sorted_short bs l :
  blocks_sorted cmp bs l → length l ≤ bs → StronglySorted (le_by cmp) l.
Proof.
  intros [l' Hl HS|X l' HlX HX Hl'] Hlen; [done|].
  rewrite length_app in Hlen.
  assert (l' = []) as -> by (apply nil_length_inv; lia).
  by rewrite app_nil_r.
Qed.

Lemma blocks_sorted_long bs l :
  blocks_sorted cmp bs l → bs ≤ length l →
  ∃ X l', l = X ++ l' ∧ length X = bs ∧
    StronglySorted (le_by cmp) X ∧ blocks_sorted cmp bs l'.
Proof.
  intros [l' Hl HS|X l' HlX HX Hl'] Hlen.
  - exists l', []. rewrite app_nil_r. split_and!; [done|lia|done|].
    apply blocks_last; [simpl; lia|constructor].
  - by exists X, l'.
Qed.

(** The first phase: insertion sort on every block of [bs] elements and
    on the shorter rest. *)
Lemma stable_blocks_spec (bs : nat) (fuel : nat) : ∀ pre rest (a b n : nat),
  0 < bs → a = length pre → b = a + bs → n = a + length rest →
  length rest ≤ fuel →
  ∃ R',
    (let '(s', a') := stable_blocks cmp fuel (pre ++ rest) bs a b n in
     insertionSort_func cmp s' a' n) = pre ++ R' ∧
    blocks_sorted cmp bs R' ∧ stable_step cmp rest R'.
Proof.
  induction fuel as [|fuel IH]; intros pre rest a b n Hbs Ha Hb Hn Hfuel.
  - assert (rest = []) as -> by (apply nil_length_inv; lia).
    cbn [stable_blocks].
    destruct (insertionSort_func_spec cmp Hswo pre [] [] a n) as (B' & HB' & HS & Hst);
      [done|simpl in *; lia|].
    simpl in HB'. rewrite !app_nil_r in HB'. rewrite app_nil_r.
    exists B'. split_and!; [done| |done].
    apply blocks_last; [|done]. apply stable_step_length in Hst.
    rewrite Hst. simpl. lia.
  - cbn [stable_blocks].
    destruct (decide (b ≤ n)) as [Hle|Hgt];
      [rewrite bool_decide_eq_true_2 by done|rewrite bool_decide_eq_false_2 by done].
    + rewrite <- (take_drop bs rest).
      set (X := take bs rest). set (rest' := drop bs rest).
      assert (length X = bs) as HlX by (unfold X; rewrite length_take; lia).
      assert (length rest' = length rest - bs) as Hlr
        by (unfold rest'; by rewrite length_drop).
      destruct (insertionSort_func_spec cmp Hswo pre X rest' a b)
        as (X' & -> & HX' & HstX); [done|lia|].
      pose proof (stable_step_length _ _ _ HstX) as HlX'.
      replace (pre ++ X' ++ rest') with ((pre ++ X') ++ rest')
        by (by rewrite <- app_assoc).
      destruct (IH (pre ++ X') rest' b (b + bs) n) as (R' & HR' & Hbl & Hst);
        rewrite ?length_app; [lia..|].
      exists (X' ++ R'). split_and!.
      * rewrite HR'. by rewrite <- app_assoc.
      * apply blocks_cons; [lia|done..].
      * by apply stable_step_app.
    + destruct (insertionSort_func_spec cmp Hswo pre rest [] a n)
        as (R' & HR' & HS & Hst); [done|lia|].
      rewrite !app_nil_r in HR'. exists R'. split_and!; [done| |done].
      apply blocks_last; [|done]. apply stable_step_length in Hst. lia.
Qed.

(** One round: neighbouring blocks of [bs] elements are merged in
    pairs, and so is a last full block with a shorter rest. *)
Lemma stable_round_spec (bs : nat) (fuel : nat) : ∀ pre rest (a b n : nat),
  0 < bs → a = length pre → b = a + 2 * bs → n = a + length rest →
  length rest ≤ fuel → blocks_sorted cmp bs rest →
  ∃ R',
    (let '(s', a') := stable_pairs cmp fuel (pre ++ rest) bs a b n in
     if bool_decide (a' + bs < n) then symMerge_func cmp s' a' (a' + bs) n else s') =
      pre ++ R' ∧
    blocks_sorted cmp (2 * bs) R' ∧ stable_step cmp rest R'.
Proof.
  induction fuel as [|fuel IH]; intros pre rest a b n Hbs Ha Hb Hn Hfuel Hblocks.
  - assert (rest = []) as -> by (apply nil_length_inv; lia).
    cbn [stable_pairs]. rewrite bool_decide_eq_false_2 by (simpl in *; lia).
    exists []. split_and!; [done| |apply stable_step_refl].
    apply blocks_last; [simpl; lia|constructor].
  - cbn [stable_pairs].
    destruct (decide (b ≤ n)) as [Hle|Hgt];
      [rewrite bool_decide_eq_true_2 by done|rewrite bool_decide_eq_false_2 by done].
    + destruct (blocks_sorted_long _ _ Hblocks) as (X & l1 & -> & HlX & HX & Hbl1);
        [lia|].
      rewrite length_app in Hn, Hfuel.
      destruct (blocks_sorted_long _ _ Hbl1) as (Y & rest' & -> & HlY & HY & Hbl2);
        [lia|].
      rewrite length_app in Hn, Hfuel.
      destruct (symMerge_func_spec cmp Hswo pre X Y rest' a (a + bs) b)
        as (M & HM & HSM & HstM); [lia..|done|done|].
      rewrite HM.
      pose proof (stable_step_length _ _ _ HstM) as HlM. rewrite length_app in HlM.
      replace (pre ++ M ++ rest') with ((pre ++ M) ++ rest')
        by (by rewrite <- app_assoc).
      destruct (IH (pre ++ M) rest' b (b + 2 * bs) n) as (R' & HR' & Hbl & Hst);
        rewrite ?length_app; [lia..|done|].
      exists (M ++ R'). split_and!.
      * rewrite HR'. by rewrite <- app_assoc.
      * apply blocks_cons; [lia|done..].
      * rewrite app_assoc. by apply stable_step_app.
    + destruct (decide (a + bs < n)) as [Hlt|Hge];
        [rewrite bool_decide_eq_true_2 by done|rewrite bool_decide_eq_false_2 by done].
      * destruct (blocks_sorted_long _ _ Hblocks) as (X & Y & -> & HlX & HX & Hbl1);
          [lia|].
        rewrite length_app in Hn, Hfuel.
        pose proof (blocks_sorted_short _ _ Hbl1 ltac:(lia)) as HY.
        destruct (symMerge_func_spec cmp Hswo pre X Y [] a (a + bs) n)
          as (M & HM & HSM & HstM); [lia..|done|done|].
        rewrite !app_nil_r in HM.
        exists M. split_and!; [done| |done].
        apply blocks_last; [|done].
        apply stable_step_length in HstM. rewrite length_app in HstM. lia.
      * exists rest. split_and!; [done| |apply stable_step_refl].
        apply blocks_last; [lia|]. apply (blocks_sorted_short bs); [done|lia].
Qed.

Lemma stable_rounds_spec (fuel : nat) : ∀ s (bs n : nat),
  0 < bs → n = length s → n ≤ fuel + bs → blocks_sorted cmp bs s →
  StronglySorted (le_by cmp) (stable_rounds cmp fuel s bs n) ∧
  stable_step cmp s (stable_rounds cmp fuel s bs n).
Proof.
  induction fuel as [|fuel IH]; intros s bs n Hbs Hn Hfuel Hblocks.
  - cbn [stable_rounds]. split; [|apply stable_step_refl].
    apply (blocks_sorted_short bs); [done|lia].
  - cbn [stable_rounds].
    destruct (decide (bs < n)) as [Hlt|Hge];
      [rewrite bool_decide_eq_true_2 by done|rewrite bool_decide_eq_false_2 by done].
    + destruct (stable_round_spec bs n [] s 0 (2 * bs) n) as (R' & HR' & Hbl & Hst);
        [done|done|lia|simpl; lia|lia|done|].
      simpl app in HR'.
      destruct (stable_pairs cmp n s bs 0 (2 * bs) n) as [s' a'].
      rewrite HR'.
      replace (bs * 2) with (2 * bs) by lia.
      destruct (IH R' (2 * bs) n) as [HS Hst']; [lia| |lia|done|].
      { apply stable_step_length in Hst. lia. }
      split; [done|]. by eapply stable_step_trans.
    + split; [|apply stable_step_refl].
      apply (blocks_sorted_short bs); [done|lia].
Qed.

(** [sort.SliceStable] with a strict weak ordering: the result is
    sorted and no element has overtaken an equivalent one. *)
Lemma SliceStable_spec s :
  StronglySorted (le_by cmp) (SliceStable cmp s) ∧
  stable_step cmp s (SliceStable cmp s).
Proof.
  unfold SliceStable, stable_func.
  destruct (stable_blocks_spec 20 (length s) [] s 0 20 (length s))
    as (R' & HR' & Hbl & Hst); [lia|done|done|done|done|].
  simpl app in HR'.
  destruct (stable_blocks cmp (length s) s 20 0 20 (length s)) as [s' a'].
  rewrite HR'.
  destruct (stable_rounds_spec (length s) R' 20 (length s)) as [HS Hst'];
    [lia| |lia|done|].
  { apply stable_step_length in Hst. lia. }
  split; [done|]. by eapply stable_step_trans.
Qed.
End StableFunc.

(** ** [sort.SliceStable] only ever swaps: a permutation for any comparator *)

Section Permutes.
Local Open Scope nat_scope.
Context {A : Type} (cmp : A → A → bool).
Implicit Types (s : list A).

Lemma Swap_perm s (i j : nat) : Swap s i j ≡ₚ s.
Proof.
  assert (∀ i j, i < j → Swap s i j ≡ₚ s) as Hlt.
  { clear i j. intros i j Hij.
    destruct (s !! i) as [x|] eqn:Hi; [|unfold Swap; by rewrite Hi].
    destruct (s !! j) as [y|] eqn:Hj; [|unfold Swap; by rewrite Hi, Hj].
    assert (drop (S i) s !! (j - S i) = Some y) as Hj'.
    { rewrite lookup_drop. rewrite <- Hj. f_equal. lia. }
    pose proof (take_drop_middle _ _ _ Hi) as Hs.
    rewrite <- (take_drop_middle _ _ _ Hj') in Hs.
    remember (take i s) as l1 eqn:Hl1.
    remember (take (j - S i) (drop (S i) s)) as l2 eqn:Hl2.
    remember (drop (S (j - S i)) (drop (S i) s)) as l3 eqn:Hl3.
    assert (length l1 = i) as Hlen1.
    { rewrite Hl1, length_take. apply lookup_lt_Some in Hi. lia. }
    assert (length l2 = j - S i) as Hlen2.
    { rewrite Hl2, length_take, length_drop. apply lookup_lt_Some in Hj. lia. }
    rewrite <- Hs. rewrite Swap_app by lia.
    apply Permutation_app_head.
    rewrite <- !Permutation_middle. apply perm_swap. }
  destruct (decide (i < j)) as [Hij|Hij]; [by apply Hlt|].
  destruct (decide (j < i)) as [Hji|Hji]; [rewrite Swap_comm; by apply Hlt|].
  assert (i = j) as -> by lia. unfold Swap.
  destruct (s !! j) as [x|] eqn:Hx; [|done].
  by rewrite list_insert_insert_eq, list_insert_id.
Qed.

Lemma foldl_perm {B} (f : list A → B → list A) (l : list B) s :
  (∀ s b, f s b ≡ₚ s) → foldl f s l ≡ₚ s.
Proof.
  intros Hf. revert s. induction l as [|b l IH]; intros s; simpl; [done|].
  by rewrite IH.
Qed.

Lemma insertionSort_inner_perm (a j : nat) s : insertionSort_inner cmp a j s ≡ₚ s.
Proof.
  revert s. induction j as [|j IH]; intros s; simpl; [done|].
  destruct (_ && _); [|done]. by rewrite IH, Swap_perm.
Qed.

Lemma insertionSort_func_perm s (a b : nat) : insertionSort_func cmp s a b ≡ₚ s.
Proof. apply foldl_perm. intros. apply insertionSort_inner_perm. Qed.

Lemma swapRange_func_perm s (a b n : nat) : swapRange_func s a b n ≡ₚ s.
Proof. apply foldl_perm. intros. apply Swap_perm. Qed.

Lemma rotate_loop_perm (fuel : nat) : ∀ s (m i j : nat),
  (rotate_loop fuel s m i j).1 ≡ₚ s.
Proof.
  induction fuel as [|fuel IH]; intros s m i j; simpl; [done|].
  repeat case_bool_decide; simpl; [| |done].
  - by rewrite IH, swapRange_func_perm.
  - by rewrite IH, swapRange_func_perm.
Qed.

Lemma rotate_func_perm s (a m b : nat) : rotate_func s a m b ≡ₚ s.
Proof.
  unfold rotate_func.
  pose proof (rotate_loop_perm (m - a + (b - m)) s m (m - a) (b - m)) as Hl.
  destruct (rotate_loop _ _ _ _ _) as [s' i']. simpl in Hl.
  by rewrite swapRange_func_perm.
Qed.

Lemma symMerge_fuel_perm (fuel : nat) : ∀ s (a m b : nat),
  symMerge_fuel cmp fuel s a m b ≡ₚ s.
Proof.
  induction fuel as [|fuel IH]; intros s a m b; cbn [symMerge_fuel]; [done|].
  case_bool_decide; [apply foldl_perm; intros; apply Swap_perm|].
  case_bool_decide; [apply foldl_perm; intros; apply Swap_perm|].
  destruct (if bool_decide _ then _ else _) as [start0 r0].
  set (st := bsearch _ _ _ _).
  repeat case_bool_decide; rewrite ?IH, ?rotate_func_perm; done.
Qed.

Lemma symMerge_func_perm s (a m b : nat) : symMerge_func cmp s a m b ≡ₚ s.
Proof. apply symMerge_fuel_perm. Qed.

Lemma stable_blocks_perm (fuel : nat) : ∀ s (bs a b n : nat),
  (stable_blocks cmp fuel s bs a b n).1 ≡ₚ s.
Proof.
  induction fuel as [|fuel IH]; intros s bs a b n; simpl; [done|].
  case_bool_decide; [|done]. by rewrite IH, insertionSort_func_perm.
Qed.

Lemma stable_pairs_perm (fuel : nat) : ∀ s (bs a b n : nat),
  (stable_pairs cmp fuel s bs a b n).1 ≡ₚ s.
Proof.
  induction fuel as [|fuel IH]; intros s bs a b n; simpl; [done|].
  case_bool_decide; [|done]. by rewrite IH, symMerge_func_perm.
Qed.

Lemma stable_rounds_perm (fuel : nat) : ∀ s (bs n : nat),
  stable_rounds cmp fuel s bs n ≡ₚ s.
Proof.
  induction fuel as [|fuel IH]; intros s bs n; cbn [stable_rounds]; [done|].
  case_bool_decide; [|done].
  pose proof (stable_pairs_perm n s bs 0 (2 * bs) n) as Hp.
  destruct (stable_pairs _ _ _ _ _ _ _) as [s' a']. simpl in Hp.
  rewrite IH. case_bool_decide; [|done]. by rewrite symMerge_func_perm.
Qed.

(** For any comparator, consistent or not, [sort.SliceStable] returns a
    rearrangement of its input. *)
Lemma SliceStable_perm s : SliceStable cmp s ≡ₚ s.
Proof.
  unfold SliceStable, stable_func.
  pose proof (stable_blocks_perm (length s) s 20 0 20 (length s)) as Hp.
  destruct (stable_blocks _ _ _ _ _ _ _) as [s' a']. simpl in Hp.
  by rewrite stable_rounds_perm, insertionSort_func_perm.
Qed.
End Permutes.

(** ** The fuel of the loops is never what stops them *)

Section Fuel.
Local Open Scope nat_scope.
Context {A : Type} (cmp : A → A → bool).
Implicit Types (s : list A).

Lemma bsearch_fuel (cond : nat → bool) (fuel : nat) : ∀ fuel' (i j : nat),
  j - i ≤ fuel → j - i ≤ fuel' → bsearch fuel cond i j = bsearch fuel' cond i j.
Proof.
  induction fuel as [|fuel IH]; intros fuel' i j Hf Hf'.
  - destruct fuel' as [|fuel']; [done|]. simpl.
    by rewrite bool_decide_eq_false_2 by lia.
  - destruct fuel' as [|fuel'].
    { simpl. by rewrite bool_decide_eq_false_2 by lia. }
    cbn [bsearch]. case_bool_decide as Hlt; [|done].
    pose proof (half_bounds i j Hlt). destruct (cond _); apply IH; lia.
Qed.

Lemma rotate_loop_fuel (fuel : nat) : ∀ fuel' s (m i j : nat),
  0 < i → 0 < j → i + j ≤ fuel → i + j ≤ fuel' →
  rotate_loop fuel s m i j = rotate_loop fuel' s m i j.
Proof.
  induction fuel as [|fuel IH]; intros fuel' s m i j Hi Hj Hf Hf'; [lia|].
  destruct fuel' as [|fuel']; [lia|]. simpl.
  case_bool_decide; [|done]. case_bool_decide; apply IH; lia.
Qed.

Lemma symMerge_fuel_enough (fuel : nat) : ∀ fuel' s (a m b : nat),
  a < m < b → b - a ≤ fuel → b - a ≤ fuel' →
  symMerge_fuel cmp fuel s a m b = symMerge_fuel cmp fuel' s a m b.
Proof.
  induction fuel as [|fuel IH]; intros fuel' s a m b Hamb Hf Hf'; [lia|].
  destruct fuel' as [|fuel']; [lia|]. cbn [symMerge_fuel].
  case_bool_decide as Hone; [done|]. case_bool_decide as Hone'; [done|].
  pose proof (half_double a b) as Hhalf.
  destruct (if bool_decide _ then _ else _) as [start0 r0].
  set (st := bsearch _ _ _ _). set (mid := (a + b) / 2) in *.
  set (s1 := if bool_decide (st < m ∧ m < mid + m - st) then _ else _).
  assert ((if bool_decide (a < st ∧ st < mid)
           then symMerge_fuel cmp fuel s1 a st mid else s1) =
          (if bool_decide (a < st ∧ st < mid)
           then symMerge_fuel cmp fuel' s1 a st mid else s1)) as ->.
  { case_bool_decide; [|done]. apply IH; lia. }
  case_bool_decide; [|done]. apply IH; lia.
Qed.

Lemma stable_blocks_fuel (fuel : nat) : ∀ fuel' s (bs a b n : nat),
  0 < bs → n + 1 - b ≤ fuel → n + 1 - b ≤ fuel' →
  stable_blocks cmp fuel s bs a b n = stable_blocks cmp fuel' s bs a b n.
Proof.
  induction fuel as [|fuel IH]; intros fuel' s bs a b n Hbs Hf Hf'.
  - destruct fuel' as [|fuel']; [done|]. simpl.
    by rewrite bool_decide_eq_false_2 by lia.
  - destruct fuel' as [|fuel'].
    { simpl. by rewrite bool_decide_eq_false_2 by lia. }
    simpl. case_bool_decide; [|done]. apply IH; lia.
Qed.

Lemma stable_pairs_fuel (fuel : nat) : ∀ fuel' s (bs a b n : nat),
  0 < bs → n + 1 - b ≤ fuel → n + 1 - b ≤ fuel' →
  stable_pairs cmp fuel s bs a b n = stable_pairs cmp fuel' s bs a b n.
Proof.
  induction fuel as [|fuel IH]; intros fuel' s bs a b n Hbs Hf Hf'.
  - destruct fuel' as [|fuel']; [done|]. simpl.
    by rewrite bool_decide_eq_false_2 by lia.
  - destruct fuel' as [|fuel'].
    { simpl. by rewrite bool_decide_eq_false_2 by lia. }
    simpl. case_bool_decide; [|done]. apply IH; lia.
Qed.

Lemma stable_rounds_fuel (fuel : nat) : ∀ fuel' s (bs n : nat),
  0 < bs → n ≤ fuel + bs → n ≤ fuel' + bs →
  stable_rounds cmp fuel s bs n = stable_rounds cmp fuel' s bs n.
Proof.
  induction fuel as [|fuel IH]; intros fuel' s bs n Hbs Hf Hf'.
  - destruct fuel' as [|fuel']; [done|]. cbn [stable_rounds].
    by rewrite bool_decide_eq_false_2 by lia.
  - destruct fuel' as [|fuel'].
    { cbn [stable_rounds]. by rewrite bool_decide_eq_false_2 by lia. }
    cbn [stable_rounds]. case_bool_decide; [|done].
    destruct (stable_pairs _ _ _ _ _ _ _) as [s' a']. apply IH; lia.
Qed.
End Fuel.

(** ** Calls that arrive one after the other *)

Section Serial.
Context {K : Type} `{Countable K} {V : Type} `{Zero V}.
Implicit Types (m : OrderedMap K V).

(** However a batch of [Set] calls on distinct new keys is serialised,
    [Len] grows by the size of the batch. *)
Lemma Len_Set_batch (kvs : list (K * V)) : ∀ m,
  NoDup kvs.*1 → (∀ k, k ∈ kvs.*1 → data m !! k = None) →
  Len (foldl (λ m kv, Set_ m kv.1 kv.2) m kvs) = (Len m + Z.of_nat (length kvs))%Z.
Proof.
  induction kvs as [|[k v] kvs IH]; intros m Hnd Hfresh; simpl.
  - lia.
  - apply NoDup_cons in Hnd as [Hk Hnd].
    assert (data m !! k = None) as Hmk by (apply Hfresh; simpl; left).
    rewrite IH; [|done|].
    + rewrite Set_absent by done. unfold Len. simpl.
      rewrite map_size_insert_None by done. lia.
    + intros k' Hk'. rewrite Set_absent by done. simpl.
      rewrite lookup_insert_ne; [apply Hfresh; simpl; by right|].
      intros ->. done.
Qed.

Lemma Len_Set_batch_perm (kvs kvs' : list (K * V)) m :
  kvs ≡ₚ kvs' → NoDup kvs.*1 → (∀ k, k ∈ kvs.*1 → data m !! k = None) →
  Len (foldl (λ m kv, Set_ m kv.1 kv.2) m kvs') = (Len m + Z.of_nat (length kvs))%Z.
Proof.
  intros Hp Hnd Hfresh. rewrite Len_Set_batch.
  - by rewrite Hp.
  - by rewrite <- Hp.
  - intros k Hk. apply Hfresh. by rewrite Hp.
Qed.
End Serial.

(** * The claims of the specification *)

Section Claims.
Context {K : Type} `{Countable K} {V : Type} `{Zero V}.
Implicit Types (m : OrderedMap K V) (k key target : K).

(** C1 (bijection invariant).  Whatever sequence of [Set], [Upsert],
    [Delete], [Clear], [InsertBefore] and [InsertAfter] calls is run on
    a freshly constructed container, the keys of [order] are exactly the
    keys of [data], [order] has no duplicates, and so the two have the
    same size. *)
Theorem bijection_invariant {W} (opts : list (option (Option K)))
    (ops : list (op K V W)) (w : W) :
  let m := (run ops (NewOrderedMap opts, w)).1 in
  list_to_set (order m) =@{gset K} dom (data m) ∧
  NoDup (order m) ∧
  (∀ k, k ∈ order m ↔ is_Some (data m !! k)) ∧
  length (order m) = size (data m).
Proof.
  intros m.
  assert (ordered_map_inv m) as Hinv by (apply inv_run, inv_new).
  split_and!; [by apply inv_dom|apply Hinv|apply Hinv|by apply inv_length].
Qed.

(** C2 (value-only update).  [Set] on a key that is already present,
    and [Upsert] with a callback on such a key, replace the value stored
    under that key and nothing else: the new value ([v] for [Set], the
    result of the callback on the old value for [Upsert]) is written
    under the key, [order], and with it the position of every key, is
    unchanged, every other key keeps its value, and the snapshot [Pairs]
    differs only in the pair of that key. *)
Theorem update_keeps_order {W} m k v (f : V → W → V * W) (w : W) :
  is_Some (data m !! k) →
  (order (Set_ m k v) = order m ∧
   data (Set_ m k v) = <[k := v]> (data m) ∧
   Keys (Set_ m k v) = Keys m ∧
   Pairs (Set_ m k v) =
     map (λ p, if decide (Key p = k) then mkPair k v else p) (Pairs m)) ∧
  (let m' := (Upsert m k v (Some f) w).1.2 in
   order m' = order m ∧
   (∀ k', k' ≠ k → data m' !! k' = data m !! k') ∧
   Keys m' = Keys m ∧
   ∃ old, data m !! k = Some old ∧
     data m' = <[k := (f old w).1]> (data m) ∧
     data m' !! k = Some (f old w).1 ∧
     Pairs m' =
       map (λ p, if decide (Key p = k) then mkPair k (f old w).1 else p)
           (Pairs m)).
Proof.
  intros Hk. split.
  - rewrite Set_present by done. simpl. split_and!; try done.
    rewrite !Pairs_map. simpl. rewrite map_map. apply map_ext.
    intros k'. simpl. destruct (decide (k' = k)) as [->|Hne].
    + unfold map_index. by rewrite lookup_insert_eq.
    + unfold map_index. by rewrite lookup_insert_ne.
  - destruct Hk as [old Hk]. rewrite (Upsert_present _ _ _ _ _ _ Hk). simpl.
    split_and!; try done.
    + intros k' Hne. by rewrite lookup_insert_ne.
    + exists old. split_and!; [done|done|apply lookup_insert_eq|].
      rewrite !Pairs_map. simpl. rewrite map_map. apply map_ext.
      intros k'. simpl. destruct (decide (k' = k)) as [->|Hne].
      * unfold map_index. by rewrite lookup_insert_eq.
      * unfold map_index. by rewrite lookup_insert_ne.
Qed.

(** C3 (ordered insertion).  In a container that satisfies the
    invariant, with [target] present and [k] absent, [InsertBefore]
    and [InsertAfter] succeed.  With [n] the index of [target],
    [InsertBefore] puts [k] at index [n], so that [target] follows it
    at [n + 1], and [InsertAfter] puts [k] at index [n + 1] right after
    [target]; every key that stood at or after the insertion point is
    one slot later, the keys before it stay, and [v] is stored under
    [k]. *)
Theorem insert_before_after_position m target k v :
  ordered_map_inv m → Has m target = true → Has m k = false →
  ∃ n : nat, order m !! n = Some target ∧
    (∃ mb, InsertBefore m target k v = (None, mb) ∧
           inserted_at (order m) n k (order mb) ∧
           order mb !! S n = Some target ∧
           length (order mb) = S (length (order m)) ∧
           data mb = <[k := v]> (data m) ∧
           Get mb k = (v, true)) ∧
    (∃ ma, InsertAfter m target k v = (None, ma) ∧
           inserted_at (order m) (S n) k (order ma) ∧
           order ma !! n = Some target ∧
           length (order ma) = S (length (order m)) ∧
           data ma = <[k := v]> (data m) ∧
           Get ma k = (v, true)).
Proof.
  intros Hinv Ht%Has_true Hk%Has_false.
  assert (target ∈ order m) as Hin by (by apply Hinv).
  destruct (InsertBefore_ok _ _ _ v Hk Hin) as (n & Hn & _ & Hb).
  destruct (InsertAfter_ok _ _ _ v Hk Hin) as (n' & Hn' & _ & Ha).
  assert (n' = n) as -> by (eapply NoDup_lookup; [apply Hinv|done..]).
  pose proof (lookup_lt_Some _ _ _ Hn) as Hlt.
  exists n. split; [done|]. split.
  - eexists. split; [exact Hb|]. simpl.
    pose proof (inserted_at_splice (order m) n k ltac:(lia)) as Hins.
    split_and!; [done| | | |].
    + destruct Hins as (_ & _ & Hshift). by rewrite Hshift.
    + rewrite length_app, length_take, length_cons, length_drop. lia.
    + done.
    + unfold Get, map_index. simpl. by rewrite lookup_insert_eq.
  - eexists. split; [exact Ha|]. simpl.
    pose proof (inserted_at_splice (order m) (S n) k ltac:(lia)) as Hins.
    split_and!; [done| | | |].
    + destruct Hins as (_ & Hkeep & _). by rewrite Hkeep by lia.
    + rewrite length_app, length_take, length_cons, length_drop. lia.
    + done.
    + unfold Get, map_index. simpl. by rewrite lookup_insert_eq.
Qed.

(** C4 (delete).  In a container that satisfies the invariant,
    [Delete] of a present key returns its value with [true], removes it
    from [data] and from [order], and closes the gap: with [n] the
    index the key had, the keys before [n] stay and every later key is
    one slot earlier.  [Delete] of an absent key returns the zero
    value with [false] and leaves the container as it was. *)
Theorem delete_compacts m k :
  ordered_map_inv m →
  (∀ v, data m !! k = Some v →
     ∃ (n : nat) m', order m !! n = Some k ∧
       Delete m k = ((v, true), m') ∧
       data m' = delete k (data m) ∧
       order m' = take n (order m) ++ drop (S n) (order m) ∧
       removed_at (order m) n (order m') ∧
       (k ∉ order m') ∧ Has m' k = false ∧
       S (length (order m')) = length (order m)) ∧
  (data m !! k = None → Delete m k = ((zero, false), m)).
Proof.
  intros Hinv. split; [|apply Delete_absent].
  intros v Hk.
  assert (k ∈ order m) as Hin by (apply Hinv; eauto).
  destruct (Delete_present _ _ _ Hk Hin) as (n & Hn & _ & Hd).
  pose proof (lookup_lt_Some _ _ _ Hn) as Hlt.
  pose proof (inv_remove _ _ _ Hinv Hn) as Hinv'.
  eexists n, _. split_and!; [done|exact Hd|done|done| | | |]; simpl.
  - by apply removed_at_splice.
  - intros Hin'. apply Hinv' in Hin'. simpl in Hin'.
    rewrite lookup_delete_eq in Hin'. by destruct Hin'.
  - apply Has_false. simpl. apply lookup_delete_eq.
  - rewrite length_app, length_take, length_drop. lia.
Qed.

(** C6 (comparator resolution).  A non-nil comparator passed to
    [SortedPairs] is the one the snapshot is sorted with, whatever is
    registered; with a nil argument the registered comparator is used;
    with neither, the call returns [ErrComparatorRequired] and no
    pairs, also on the empty container.  The registered comparator is
    the one the last [WithComparator] option gave to the constructor,
    none if there was no such option, and no later call changes it. *)
Theorem comparator_resolution (d : gmap K V) (o : list K) :
  (∀ f reg,
     SortedPairs (mkOrderedMap d o reg) (Some f) =
       ((SliceStable (by_key f) (Pairs (mkOrderedMap d o reg)), None),
        mkOrderedMap d o reg)) ∧
  (∀ f reg reg',
     (SortedPairs (mkOrderedMap d o reg) (Some f)).1 =
     (SortedPairs (mkOrderedMap d o reg') (Some f)).1) ∧
  (∀ g,
     SortedPairs (mkOrderedMap d o (Some g)) None =
     SortedPairs (mkOrderedMap d o (Some g)) (Some g)) ∧
  SortedPairs (mkOrderedMap d o None) None =
    (([], Some ErrComparatorRequired), mkOrderedMap d o None) ∧
  (SortedPairs (NewOrderedMap (V := V) ([] : list (option (Option K)))) None).1 =
    ([], Some ErrComparatorRequired) ∧
  (∀ W opts g (ops : list (op K V W)) w,
     less (run ops (NewOrderedMap (opts ++ [Some (WithComparator g)]), w)).1 = g) ∧
  (∀ W opts n (ops : list (op K V W)) w,
     less (run ops (NewOrderedMap (opts ++ [Some (WithCapacity n)]), w)).1 =
     less (NewOrderedMap (V := V) opts)) ∧
  (∀ W (ops : list (op K V W)) w,
     less (run ops (NewOrderedMap [], w)).1 = None).
Proof.
  split_and!.
  - intros f reg. unfold SortedPairs, Pairs. done.
  - intros f reg reg'. unfold SortedPairs. done.
  - intros g. done.
  - done.
  - done.
  - intros W opts g ops w. rewrite less_run. simpl.
    unfold apply_options. by rewrite foldl_app.
  - intros W opts n ops w. rewrite less_run. simpl.
    unfold apply_options. rewrite foldl_app. simpl.
    unfold WithCapacity. by case_decide.
  - intros W ops w. by rewrite less_run.
Qed.

(** C7 (upsert).  On an absent key [Upsert] stores [nv], appends the
    key to [order] and reports [inserted = true]; the callback, nil or
    not, is not run, so the ambient state is untouched.  On a present
    key with a callback, the callback runs once, on the current value
    and the ambient state of the call; its result is stored and
    returned with [inserted = false], and the ambient state is the one
    that single run leaves.  On a present key without a callback the
    call returns the error that asks for one. *)
Theorem upsert_cases {W} m k nv (w : W) :
  (data m !! k = None →
     ∀ fn : option (V → W → V * W),
       Upsert m k nv fn w =
         ((nv, true, None),
          mkOrderedMap (<[k := nv]> (data m)) (order m ++ [k]) (less m), w)) ∧
  (∀ old, data m !! k = Some old →
     ∀ f : V → W → V * W,
       Upsert m k nv (Some f) w =
         (((f old w).1, false, None),
          mkOrderedMap (<[k := (f old w).1]> (data m)) (order m) (less m),
          (f old w).2)) ∧
  (is_Some (data m !! k) →
     Upsert m k nv None w = ((zero, false, Some (ErrUpsertRequiresFn k)), m, w)).
Proof.
  split_and!.
  - intros Hk fn. by apply Upsert_absent.
  - intros old Hk f. by apply Upsert_present.
  - intros Hk. by apply Upsert_present_nil.
Qed.

(** C8 (failed calls change nothing).  When [Upsert], [InsertBefore]
    or [InsertAfter] returns an error, the container it leaves is the
    container it was given, and the error is one of the documented
    ones, raised under the documented condition; [Upsert] has not run
    its callback.  [SortedPairs] never changes the container, whether
    it fails or not. *)
Theorem failed_calls_leave_state {W} m target k v
    (fn : option (V → W → V * W)) (w : W) (less_arg : option (K → K → bool)) :
  (∀ e, (Upsert m k v fn w).1.1.2 = Some e →
     (Upsert m k v fn w).1.2 = m ∧ (Upsert m k v fn w).2 = w ∧
     e = ErrUpsertRequiresFn k ∧ fn = None ∧ Has m k = true) ∧
  (∀ e, (InsertBefore m target k v).1 = Some e →
     (InsertBefore m target k v).2 = m ∧
     (e = ErrKeyAlreadyExists k ∧ Has m k = true ∨
      e = ErrTargetNotFound target ∧ Has m k = false ∧ target ∉ order m)) ∧
  (∀ e, (InsertAfter m target k v).1 = Some e →
     (InsertAfter m target k v).2 = m ∧
     (e = ErrKeyAlreadyExists k ∧ Has m k = true ∨
      e = ErrTargetNotFound target ∧ Has m k = false ∧ target ∉ order m)) ∧
  (SortedPairs m less_arg).2 = m ∧
  (∀ e, (SortedPairs m less_arg).1.2 = Some e →
     e = ErrComparatorRequired ∧ less_arg = None ∧ less m = None).
Proof.
  split_and!.
  - intros e. destruct (data m !! k) as [old|] eqn:Hk.
    + destruct fn as [f|].
      * rewrite (Upsert_present _ _ _ _ _ _ Hk). simpl. done.
      * rewrite Upsert_present_nil by eauto. simpl. intros [= <-].
        split_and!; try done. apply Has_true. eauto.
    + rewrite Upsert_absent by done. simpl. done.
  - intros e. destruct (data m !! k) as [old|] eqn:Hk.
    + rewrite InsertBefore_duplicate by eauto. simpl. intros [= <-].
      split; [done|]. left. split; [done|]. apply Has_true. eauto.
    + destruct (decide (target ∈ order m)) as [Ht|Ht].
      * destruct (InsertBefore_ok _ _ _ v Hk Ht) as (n & _ & _ & ->). done.
      * rewrite InsertBefore_no_target by done. simpl. intros [= <-].
        split; [done|]. right. split_and!; try done. by apply Has_false.
  - intros e. destruct (data m !! k) as [old|] eqn:Hk.
    + rewrite InsertAfter_duplicate by eauto. simpl. intros [= <-].
      split; [done|]. left. split; [done|]. apply Has_true. eauto.
    + destruct (decide (target ∈ order m)) as [Ht|Ht].
      * destruct (InsertAfter_ok _ _ _ v Hk Ht) as (n & _ & _ & ->). done.
      * rewrite InsertAfter_no_target by done. simpl. intros [= <-].
        split; [done|]. right. split_and!; try done. by apply Has_false.
  - unfold SortedPairs. destruct less_arg; [done|]. by destruct (less m).
  - intros e. unfold SortedPairs. destruct less_arg; [done|].
    destruct (less m); [done|]. simpl. by intros [= <-].
Qed.

(** C10 (the duplicate check comes first).  When [k] is already
    present, [InsertBefore] and [InsertAfter] return the "key already
    exists" error for every [target], present or not; so a "target not
    found" error is only ever returned for an absent [k]; and inserting
    a present key before or after itself fails with the duplicate
    error. *)
Theorem duplicate_check_first m target k v :
  (Has m k = true →
     InsertBefore m target k v = (Some (ErrKeyAlreadyExists k), m) ∧
     InsertAfter m target k v = (Some (ErrKeyAlreadyExists k), m)) ∧
  (∀ t', (InsertBefore m target k v).1 = Some (ErrTargetNotFound t') →
     Has m k = false) ∧
  (∀ t', (InsertAfter m target k v).1 = Some (ErrTargetNotFound t') →
     Has m k = false) ∧
  (Has m target = true →
     InsertBefore m target target v = (Some (ErrKeyAlreadyExists target), m) ∧
     InsertAfter m target target v = (Some (ErrKeyAlreadyExists target), m)).
Proof.
  split_and!.
  - intros Hk%Has_true.
    by rewrite InsertBefore_duplicate, InsertAfter_duplicate.
  - intros t'. destruct (Has m k) eqn:Hk; [|done].
    apply Has_true in Hk. by rewrite InsertBefore_duplicate.
  - intros t'. destruct (Has m k) eqn:Hk; [|done].
    apply Has_true in Hk. by rewrite InsertAfter_duplicate.
  - intros Hk%Has_true.
    by rewrite InsertBefore_duplicate, InsertAfter_duplicate.
Qed.
End Claims.

(** ** The scenarios of the specification, run on the model *)

Section Scenarios.
Local Open Scope string_scope.

(** Scenario A at the point of the value-only update. *)
Lemma update_keeps_order_witness :
  let m := Set_ (Set_ new_string_map "b" 2) "a" 1 in
  is_Some (data m !! "a") ∧
  Pairs (Set_ m "a" 3) = [mkPair "b" 2; mkPair "a" 3] ∧
  order (Set_ m "a" 3) = ["b"; "a"] ∧
  order (Upsert m "a" 3 (Some (counted (Z.add 2))) 0%nat).1.2 = ["b"; "a"] ∧
  data (Upsert m "a" 3 (Some (counted (Z.add 2))) 0%nat).1.2 !! "a" = Some 3 ∧
  data (Upsert m "a" 3 (Some (counted (Z.add 2))) 0%nat).1.2 !! "b" = Some 2 ∧
  Pairs (Upsert m "a" 3 (Some (counted (Z.add 2))) 0%nat).1.2 =
    [mkPair "b" 2; mkPair "a" 3].
Proof.
  intros m.
  assert (is_Some (data m !! "a")) as Hk by (vm_compute; eauto).
  destruct (update_keeps_order m "a" 3 (counted (Z.add 2)) 0%nat Hk)
    as [(Ho & Hd & Hkeys & Hp) (Ho' & Hother & _ & old & Hold & _ & Hnew & Hp')].
  assert (old = 1) as -> by (vm_compute in Hold; congruence).
  split_and!; [done|rewrite Hp; by vm_compute|by rewrite Ho|by rewrite Ho'
              |by rewrite Hnew|by rewrite Hother|rewrite Hp'; by vm_compute].
Defined.

(** Scenario B, first insertion: ["b"] goes before ["c"] in [a; c]. *)
Lemma insert_before_after_position_witness :
  let m := Set_ (Set_ new_string_map "a" 1) "c" 3 in
  ordered_map_inv m ∧ Has m "c" = true ∧ Has m "b" = false ∧
  ∃ n : nat, order m !! n = Some "c" ∧
    (∃ mb, InsertBefore m "c" "b" 2 = (None, mb) ∧
           inserted_at (order m) n "b" (order mb) ∧
           order mb !! S n = Some "c" ∧
           length (order mb) = S (length (order m)) ∧
           data mb = <["b" := 2]> (data m) ∧
           Get mb "b" = (2, true)) ∧
    (∃ ma, InsertAfter m "c" "b" 2 = (None, ma) ∧
           inserted_at (order m) (S n) "b" (order ma) ∧
           order ma !! n = Some "c" ∧
           length (order ma) = S (length (order m)) ∧
           data ma = <["b" := 2]> (data m) ∧
           Get ma "b" = (2, true)).
Proof.
  intros m.
  assert (ordered_map_inv m) as Hinv by (do 2 apply inv_Set; apply inv_new).
  split_and!; [done|by vm_compute|by vm_compute|].
  apply insert_before_after_position; [done|by vm_compute|by vm_compute].
Defined.

Example scenario_B :
  let m := Set_ (Set_ new_string_map "a" 1) "c" 3 in
  let m1 := (InsertBefore m "c" "b" 2).2 in
  let m2 := (InsertAfter m1 "c" "d" 4).2 in
  (InsertBefore m "c" "b" 2).1 = None ∧
  (InsertAfter m1 "c" "d" 4).1 = None ∧
  Keys m2 = ["a"; "b"; "c"; "d"] ∧
  (InsertBefore m2 "x" "z" 0).1 = Some (ErrTargetNotFound "x") ∧
  (InsertAfter m2 "a" "b" 99).1 = Some (ErrKeyAlreadyExists "b").
Proof. by vm_compute. Qed.

(** Scenario E, first deletion, and a deletion of an absent key. *)
Lemma delete_compacts_witness :
  let m := Set_ (Set_ (Set_ new_string_map "a" 1) "b" 2) "c" 3 in
  ordered_map_inv m ∧
  (∃ (n : nat) m', order m !! n = Some "b" ∧
     Delete m "b" = ((2, true), m') ∧
     data m' = delete "b" (data m) ∧
     order m' = (take n (order m) ++ drop (S n) (order m))%list ∧
     removed_at (order m) n (order m') ∧
     ("b" ∉ order m') ∧ Has m' "b" = false ∧
     S (length (order m')) = length (order m)) ∧
  Delete m "z" = ((0, false), m).
Proof.
  intros m.
  assert (ordered_map_inv m) as Hinv by (do 3 apply inv_Set; apply inv_new).
  destruct (delete_compacts m "b" Hinv) as [Hpresent _].
  destruct (delete_compacts m "z" Hinv) as [_ Habsent].
  split_and!; [done|by apply Hpresent|by apply Habsent].
Defined.

Example scenario_E :
  let m := Set_ (Set_ (Set_ new_string_map "a" 1) "b" 2) "c" 3 in
  let m1 := (Delete m "b").2 in
  let m2 := (Delete m1 "a").2 in
  Keys m1 = ["a"; "c"] ∧ Keys m2 = ["c"] ∧
  (Delete m "b").1 = (2, true) ∧ (Delete m1 "a").1 = (1, true) ∧
  Get m2 "a" = (0, false).
Proof. by vm_compute. Qed.

(** [Upsert] on an absent key, on a present key with a counting
    callback, and on a present key without a callback. *)
Lemma upsert_cases_witness :
  let m := Set_ new_string_map "a" 1 in
  data m !! "b" = None ∧ data m !! "a" = Some 1 ∧
  (Upsert m "b" 5 (Some (counted (Z.add 1))) 0%nat).1.1 = (5, true, None) ∧
  (Upsert m "b" 5 (Some (counted (Z.add 1))) 0%nat).2 = 0%nat ∧
  (Upsert m "a" 10 (Some (counted (Z.add 1))) 0%nat).1.1 = (2, false, None) ∧
  (Upsert m "a" 10 (Some (counted (Z.add 1))) 0%nat).2 = 1%nat ∧
  Upsert m "a" 0 None 0%nat = ((0, false, Some (ErrUpsertRequiresFn "a")), m, 0%nat).
Proof.
  intros m.
  assert (data m !! "b" = None) as Hb by (by vm_compute).
  assert (data m !! "a" = Some 1) as Ha by (by vm_compute).
  destruct (upsert_cases m "b" 5 0%nat) as (Habsent & _ & _).
  destruct (upsert_cases m "a" 10 0%nat) as (_ & Hpresent & _).
  destruct (upsert_cases m "a" 0 0%nat) as (_ & _ & Hnil).
  split_and!; [done|done| | | | |].
  - by rewrite Habsent.
  - by rewrite Habsent.
  - by rewrite (Hpresent 1 Ha).
  - by rewrite (Hpresent 1 Ha).
  - apply Hnil. eauto.
Defined.

(** A failed [Upsert] and failed insertions on [a; b]. *)
Lemma failed_calls_leave_state_witness :
  let m := Set_ (Set_ new_string_map "a" 1) "b" 2 in
  (Upsert m "a" 0 None 0%nat).1.1.2 = Some (ErrUpsertRequiresFn "a") ∧
  (Upsert m "a" 0 None 0%nat).1.2 = m ∧
  (InsertBefore m "x" "z" 0).1 = Some (ErrTargetNotFound "x") ∧
  (InsertBefore m "x" "z" 0).2 = m ∧
  (InsertAfter m "a" "b" 99).1 = Some (ErrKeyAlreadyExists "b") ∧
  (InsertAfter m "a" "b" 99).2 = m ∧
  (SortedPairs m None).1.2 = Some ErrComparatorRequired ∧
  (SortedPairs m None).2 = m.
Proof.
  intros m.
  assert ((Upsert m "a" 0 None 0%nat).1.1.2 = Some (ErrUpsertRequiresFn "a"))
    as Hu by (by vm_compute).
  assert ((InsertBefore m "x" "z" 0).1 = Some (ErrTargetNotFound "x"))
    as Hb by (by vm_compute).
  assert ((InsertAfter m "a" "b" 99).1 = Some (ErrKeyAlreadyExists "b"))
    as Ha by (by vm_compute).
  destruct (failed_calls_leave_state m "x" "z" 0 None 0%nat None)
    as (_ & Hib & _ & Hsp & _).
  destruct (failed_calls_leave_state m "a" "b" 99 None 0%nat None)
    as (_ & _ & Hia & _ & _).
  destruct (failed_calls_leave_state m "a" "a" 0 None 0%nat None)
    as (Hup & _ & _ & _ & _).
  split_and!; [done|by apply (Hup _ Hu)|done|by apply (Hib _ Hb)
              |done|by apply (Hia _ Ha)|by vm_compute|done].
Defined.

(** A present new key with an absent target, and a key inserted next
    to itself. *)
Lemma duplicate_check_first_witness :
  let m := Set_ (Set_ new_string_map "a" 1) "b" 2 in
  Has m "b" = true ∧ Has m "x" = false ∧
  InsertBefore m "x" "b" 7 = (Some (ErrKeyAlreadyExists "b"), m) ∧
  InsertAfter m "x" "b" 7 = (Some (ErrKeyAlreadyExists "b"), m) ∧
  InsertBefore m "b" "b" 7 = (Some (ErrKeyAlreadyExists "b"), m) ∧
  InsertAfter m "b" "b" 7 = (Some (ErrKeyAlreadyExists "b"), m).
Proof.
  intros m.
  assert (Has m "b" = true) as Hb by (by vm_compute).
  destruct (duplicate_check_first m "x" "b" 7) as ([Hib Hia] & _).
  { done. }
  destruct (duplicate_check_first m "b" "b" 7) as (_ & _ & _ & Hself).
  destruct (Hself Hb) as [Hsb Hsa].
  split_and!; [done|by vm_compute|done..].
Defined.

Example scenario_A :
  let m := Set_ (Set_ (Set_ new_string_map "b" 2) "a" 1) "a" 3 in
  Pairs m = [mkPair "b" 2; mkPair "a" 3] ∧
  Has m "a" = true ∧ Has m "b" = true ∧ Get m "a" = (3, true) ∧ Len m = 2.
Proof. by vm_compute. Qed.

Example scenario_D :
  (SortedPairs new_string_map None).1 = ([], Some ErrComparatorRequired) ∧
  (SortedPairs (Set_ new_string_map "k" 1) None).1 = ([], Some ErrComparatorRequired).
Proof. by vm_compute. Qed.
End Scenarios.

(** ** Sorted snapshots *)

Section SortedFacts.
Local Open Scope nat_scope.
Context {A : Type} (cmp : A → A → bool).
Implicit Types (l : list A).

Lemma StronglySorted_sorted_by l :
  StronglySorted (le_by cmp) l → sorted_by cmp l.
Proof.
  intros Hl i j x y Hij Hi Hj.
  rewrite <- (take_drop j l) in Hl.
  apply (StronglySorted_app_1_elem_of _ _ _ x y) in Hl; [done| |].
  - apply elem_of_take. exists i. split; [done|lia].
  - apply (list_elem_of_lookup_2 _ 0). by rewrite lookup_drop, Nat.add_0_r.
Qed.

Lemma occurs_before_NoDup l x y :
  NoDup l → occurs_before l x y → ¬ occurs_before l y x.
Proof.
  intros Hnd (i & j & Hij & Hi & Hj) (i' & j' & Hij' & Hi' & Hj').
  pose proof (NoDup_lookup _ _ _ _ Hnd Hi Hj').
  pose proof (NoDup_lookup _ _ _ _ Hnd Hj Hi'). lia.
Qed.

Lemma occurs_before_total l x y :
  x ∈ l → y ∈ l → x ≠ y → occurs_before l x y ∨ occurs_before l y x.
Proof.
  intros [i Hi]%list_elem_of_lookup_1 [j Hj]%list_elem_of_lookup_1 Hne.
  destruct (decide (i < j)) as [Hij|Hij]; [left; by exists i, j|].
  right. exists j, i. split_and!; [|done..].
  destruct (decide (i = j)) as [->|]; [|lia]. congruence.
Qed.

(** With distinct elements, a stable pass keeps the relative order of
    equivalent elements exactly. *)
Lemma stable_step_NoDup l l' x y :
  NoDup l → stable_step cmp l l' → equiv_by cmp x y →
  (occurs_before l' x y ↔ occurs_before l x y).
Proof.
  intros Hnd [Hp Hst] Hxy. split; [|by apply Hst].
  intros Hout.
  assert (NoDup l') as Hnd' by (by rewrite <- Hp).
  destruct (occurs_before_elem_of _ _ _ Hout) as [Hx Hy].
  rewrite <- Hp in Hx, Hy.
  assert (x ≠ y) as Hne.
  { intros ->. by apply (occurs_before_NoDup l' y y). }
  destruct (occurs_before_total l x y Hx Hy Hne) as [|Hrev]; [done|].
  exfalso. apply (occurs_before_NoDup l' x y Hnd' Hout).
  apply Hst; [|done]. destruct Hxy. by split.
Qed.

(** A comparison of a numeric measure is a strict weak ordering. *)
Lemma swo_by_measure (f : A → nat) :
  StrictWeakOrder (λ x y, bool_decide (f x < f y)).
Proof.
  split.
  - intros x. apply bool_decide_eq_false. lia.
  - intros x y z Hxy%bool_decide_eq_true Hyz%bool_decide_eq_true.
    apply bool_decide_eq_true. lia.
  - intros x y z [Hxy%bool_decide_eq_false Hyx%bool_decide_eq_false]
                 [Hyz%bool_decide_eq_false Hzy%bool_decide_eq_false].
    split; apply bool_decide_eq_false; lia.
Qed.
End SortedFacts.

Section SortedPairsFacts.
Context {K : Type} `{Countable K} {V : Type} `{Zero V}.
Implicit Types (m : OrderedMap K V).

Lemma swo_by_key (lt : K → K → bool) :
  StrictWeakOrder lt → StrictWeakOrder (by_key (V := V) lt).
Proof.
  intros [Hirr Htr Heq]. split; unfold by_key.
  - intros p. apply Hirr.
  - intros p q r. apply Htr.
  - intros p q r. apply Heq.
Qed.

Lemma Pairs_NoDup m : NoDup (order m) → NoDup (Pairs m).
Proof.
  intros Hnd. rewrite Pairs_map.
  apply (NoDup_fmap_2_strong (λ k, mkPair k (map_index (data m) k).1)); [|done].
  by intros k k' _ _ [= ->].
Qed.

Lemma SortedPairs_with m (lt : K → K → bool) :
  SortedPairs m (Some lt) = ((SliceStable (by_key lt) (Pairs m), None), m).
Proof. done. Qed.

Lemma SortedPairs_registered m (lt : K → K → bool) :
  less m = Some lt → SortedPairs m None = SortedPairs m (Some lt).
Proof. unfold SortedPairs. by intros ->. Qed.
End SortedPairsFacts.

Section ClaimSorted.
Context {K : Type} `{Countable K} {V : Type} `{Zero V}.
Implicit Types (m : OrderedMap K V).

(** C5 (stable sorted snapshot), as the code has it.  With a
    comparator that is a strict weak ordering of the keys,
    [SortedPairs] returns a rearrangement of the snapshot [Pairs] in
    which no pair is less than a pair before it, and in which a pair
    that stood before an equivalent pair in the snapshot still stands
    before it; when the keys in [order] are distinct, two equivalent
    pairs are in the same relative order in the result and in the
    snapshot.  The container is left as it was.  The same holds when
    the comparator is the registered one and the argument is nil. *)
Theorem sortedPairs_stable m (lt : K → K → bool) :
  StrictWeakOrder lt →
  ∃ out,
    SortedPairs m (Some lt) = ((out, None), m) ∧
    (less m = Some lt → SortedPairs m None = ((out, None), m)) ∧
    out ≡ₚ Pairs m ∧
    sorted_by (by_key lt) out ∧
    (∀ p q, equiv_by (by_key lt) p q →
       occurs_before (Pairs m) p q → occurs_before out p q) ∧
    (NoDup (order m) →
       ∀ p q, equiv_by (by_key lt) p q →
         (occurs_before out p q ↔ occurs_before (Pairs m) p q)).
Proof.
  intros Hswo%(swo_by_key (V := V)).
  destruct (SliceStable_spec (by_key lt) Hswo (Pairs m)) as [Hsorted Hstep].
  exists (SliceStable (by_key lt) (Pairs m)). split_and!.
  - apply SortedPairs_with.
  - intros Hreg. by rewrite (SortedPairs_registered _ _ Hreg).
  - symmetry. apply Hstep.
  - by apply StronglySorted_sorted_by.
  - apply Hstep.
  - intros Hnd p q Hpq.
    apply (stable_step_NoDup (by_key lt)); [by apply Pairs_NoDup|done..].
Qed.

(** For any comparator at all, the result of [SortedPairs] is a
    rearrangement of the snapshot and the container is left as it
    was. *)
Lemma sortedPairs_permutes m (cmp : K → K → bool) :
  (SortedPairs m (Some cmp)).1.1 ≡ₚ Pairs m ∧ (SortedPairs m (Some cmp)).2 = m.
Proof. rewrite SortedPairs_with. simpl. split; [apply SliceStable_perm|done]. Qed.
End ClaimSorted.

Section ScenarioSorted.
Local Open Scope string_scope.

(** Scenario C: the registered comparator is [len(a) < len(b)]. *)
Lemma sortedPairs_stable_witness :
  let by_len := λ a b : string, bool_decide (String.length a < String.length b)%nat in
  let m := Set_ (Set_ (Set_ (NewOrderedMap (K := string) (V := Z)
                               [Some (WithComparator (Some by_len))])
                        "aa" 1) "bb" 2) "c" 3 in
  StrictWeakOrder by_len ∧
  (∃ out,
    SortedPairs m (Some by_len) = ((out, None), m) ∧
    (less m = Some by_len → SortedPairs m None = ((out, None), m)) ∧
    out ≡ₚ Pairs m ∧
    sorted_by (by_key by_len) out ∧
    (∀ p q, equiv_by (by_key by_len) p q →
       occurs_before (Pairs m) p q → occurs_before out p q) ∧
    (NoDup (order m) →
       ∀ p q, equiv_by (by_key by_len) p q →
         (occurs_before out p q ↔ occurs_before (Pairs m) p q))) ∧
  (SortedPairs m None).1 = ([mkPair "c" 3; mkPair "aa" 1; mkPair "bb" 2], None) ∧
  Keys m = ["aa"; "bb"; "c"].
Proof.
  intros by_len m.
  assert (StrictWeakOrder by_len) as Hswo by apply swo_by_measure.
  split_and!; [done|by apply sortedPairs_stable|by vm_compute|by vm_compute].
Defined.

(** The claim as stated, for every comparator, fails: with the
    comparator that always answers [true], the two pairs of [a; b] come
    back as [b; a], and [a] is less than [b] that now stands before
    it. *)
Lemma sortedPairs_any_comparator_counterexample :
  let always := λ _ _ : string, true in
  let m := Set_ (Set_ (NewOrderedMap (K := string) (V := Z) []) "a" 1) "b" 2 in
  (SortedPairs m (Some always)).1 = ([mkPair "b" 2; mkPair "a" 1], None) ∧
  ¬ sorted_by (by_key always) (SortedPairs m (Some always)).1.1 ∧
  ¬ ∃ out, out ≡ₚ Pairs m ∧ sorted_by (by_key always) out.
Proof.
  intros always m. split_and!.
  - by vm_compute.
  - intros Hsorted.
    specialize (Hsorted 0%nat 1%nat (mkPair "b" 2) (mkPair "a" 1)).
    by specialize (Hsorted ltac:(lia) eq_refl eq_refl).
  - intros (out & Hp & Hsorted).
    apply Permutation_length in Hp as Hlen.
    destruct out as [|p [|q out]]; [done..|].
    by specialize (Hsorted 0%nat 1%nat p q ltac:(lia) eq_refl eq_refl).
Qed.

(** Stability is lost as well once the comparator is not a strict weak
    ordering and the snapshot is longer than one block of the sort:
    "less by at least two" is irreflexive and transitive, but its
    incomparability is not transitive.  With 21 keys, the pairs of [24]
    and [23] are equivalent and [24] is the earlier one in the
    snapshot, yet the result has [23] first. *)
Example sortedPairs_semiorder_unstable :
  let semi := λ a b : nat, bool_decide (a + 1 < b)%nat in
  let keys := [18; 15; 16; 12; 25; 1; 24; 7; 22; 13; 5; 19; 8; 11; 10; 14;
               20; 21; 9; 6; 23]%nat in
  let m := foldl (λ m k, Set_ m k 0) (NewOrderedMap (K := nat) (V := Z) []) keys in
  let out := (SortedPairs m (Some semi)).1.1 in
  Keys m = keys ∧
  map Key out = [1; 5; 7; 6; 8; 12; 11; 10; 9; 13; 15; 14; 16; 18; 19; 20;
                 22; 21; 23; 25; 24]%nat ∧
  equiv_by (by_key semi) (mkPair 24%nat 0) (mkPair 23%nat 0) ∧
  occurs_before (Pairs m) (mkPair 24%nat 0) (mkPair 23%nat 0) ∧
  occurs_before out (mkPair 23%nat 0) (mkPair 24%nat 0) ∧
  ¬ occurs_before out (mkPair 24%nat 0) (mkPair 23%nat 0).
Proof.
  intros semi keys m out.
  assert (occurs_before out (mkPair 23%nat 0) (mkPair 24%nat 0)) as Hrev.
  { exists 18%nat, 20%nat. split_and!; [lia|by vm_compute..]. }
  split_and!; [by vm_compute|by vm_compute|by split| |done|].
  - exists 6%nat, 20%nat. split_and!; [lia|by vm_compute..].
  - apply occurs_before_NoDup; [|done].
    assert (NoDup (Pairs m)) as Hnd.
    { apply Pairs_NoDup. apply (bool_decide_unpack _). by vm_compute. }
    destruct (sortedPairs_permutes m semi) as [Hp _].
    fold out in Hp. by rewrite Hp.
Qed.
End ScenarioSorted.

(** * Further properties of the container *)

(** ** Lookups after a write *)

Section Lookups.
Context {K : Type} `{Countable K} {V : Type} `{Zero V}.
Implicit Types (m : OrderedMap K V) (k key target : K).

Lemma Set_data m k v : data (Set_ m k v) = <[k := v]> (data m).
Proof. unfold Set_. by destruct (map_index (data m) k) as [? []]. Qed.

Lemma Delete_data m k : data (Delete m k).2 = delete k (data m).
Proof.
  unfold Delete, map_index. destruct (data m !! k) eqn:Hk; simpl; [done|].
  by rewrite delete_id.
Qed.

Lemma Get_lookup m k : Get m k = map_index (data m) k.
Proof. done. Qed.

Lemma eta m : mkOrderedMap (data m) (order m) (less m) = m.
Proof. by destruct m. Qed.

Lemma filter_all {A} (P : A → Prop) `{∀ x, Decision (P x)} (l : list A) :
  (∀ x, x ∈ l → P x) → filter P l = l.
Proof.
  induction l as [|x l IH]; intros Hall; [done|].
  rewrite filter_cons_True by (apply Hall; left).
  rewrite IH; [done|]. intros y Hy. apply Hall. by right.
Qed.

(** Cutting the only occurrence of [k] out of a duplicate-free slice
    leaves the other keys in their order. *)
Lemma cut_is_filter (s : list K) (n : nat) k :
  NoDup s → s !! n = Some k →
  take n s ++ drop (S n) s = filter (λ x, x ≠ k) s.
Proof.
  intros Hnd Hn. rewrite <- (take_drop_middle _ _ _ Hn) in Hnd |- * at 3.
  apply NoDup_app in Hnd as (_ & Hcross & [Hk _]%NoDup_cons).
  rewrite filter_app, filter_cons_False by (by intros ?).
  rewrite !filter_all; [done| |].
  - intros x Hx ->. done.
  - intros x Hx ->. by apply (Hcross k); [|left].
Qed.

(** What [Delete] leaves behind, in a container that satisfies the
    invariant. *)
Lemma Delete_state m k :
  ordered_map_inv m →
  (Delete m k).2 =
    mkOrderedMap (delete k (data m)) (filter (λ x, x ≠ k) (order m)) (less m).
Proof.
  intros Hinv. destruct (data m !! k) as [v|] eqn:Hk.
  - assert (k ∈ order m) as Hin by (apply Hinv; eauto).
    destruct (Delete_present _ _ _ Hk Hin) as (n & Hn & _ & ->). simpl.
    f_equal. apply cut_is_filter; [apply Hinv|done].
  - rewrite Delete_absent by done. simpl.
    rewrite delete_id by done. rewrite filter_all; [by rewrite eta|].
    intros x Hx ->. apply Hinv in Hx as [? ?]. congruence.
Qed.

(** A key spliced into [order] and written into [data] is taken out
    again by [Delete], which gives back the container as it was. *)
Lemma Delete_spliced (d : gmap K V) (o : list K) l (n : nat) k v :
  NoDup o → k ∉ o → d !! k = None → (n ≤ length o)%nat →
  Delete (mkOrderedMap (<[k := v]> d) (take n o ++ k :: drop n o) l) k =
    ((v, true), mkOrderedMap d o l).
Proof.
  intros Hnd Hk Hd Hn.
  set (m' := mkOrderedMap (<[k := v]> d) (take n o ++ k :: drop n o) l).
  assert (length (take n o) = n) as Hlen by (rewrite length_take; lia).
  assert (order m' !! n = Some k) as Hat.
  { simpl. rewrite lookup_app_r by lia. by rewrite Hlen, Nat.sub_diag. }
  assert (NoDup (order m')) as Hnd'.
  { simpl. rewrite splice_perm. by constructor. }
  destruct (Delete_present m' k v) as (n' & Hn' & _ & ->).
  { simpl. apply lookup_insert_eq. }
  { by eapply list_elem_of_lookup_2. }
  assert (n' = n) as -> by (by eapply NoDup_lookup).
  simpl. f_equal. f_equal.
  - rewrite delete_insert_eq. by apply delete_id.
  - rewrite take_app_length' by done.
    rewrite drop_app_ge by lia. rewrite Hlen.
    replace (S n - n)%nat with 1%nat by lia. simpl. rewrite drop_0.
    by rewrite take_drop.
Qed.

(** X1 ([Set] then [Get]).  After [Set(k, v)], [Get(k)] returns [v]
    with [true] and [Has(k)] holds, whether [k] was new or not; the
    value every other key maps to is what it was. *)
Theorem set_then_get m k v k' :
  Get (Set_ m k v) k = (v, true) ∧ Has (Set_ m k v) k = true ∧
  (k' ≠ k →
     Get (Set_ m k v) k' = Get m k' ∧ Has (Set_ m k v) k' = Has m k').
Proof.
  unfold Has, Get. rewrite !Set_data. unfold map_index.
  rewrite lookup_insert_eq. split_and!; [done..|].
  intros Hne. by rewrite lookup_insert_ne.
Qed.

(** X2 ([Delete] then [Get]).  After [Delete(k)], [Get(k)] returns the
    zero value with [false], a second [Delete(k)] misses and changes
    nothing, and every other key maps to what it did. *)
Theorem delete_then_get m k k' :
  Get (Delete m k).2 k = (zero, false) ∧ Has (Delete m k).2 k = false ∧
  Delete (Delete m k).2 k = ((zero, false), (Delete m k).2) ∧
  (k' ≠ k →
     Get (Delete m k).2 k' = Get m k' ∧ Has (Delete m k).2 k' = Has m k').
Proof.
  assert (data (Delete m k).2 !! k = None) as Hgone
    by (rewrite Delete_data; apply lookup_delete_eq).
  split_and!.
  - unfold Get. by rewrite (map_index_None _ _ Hgone).
  - by apply Has_false.
  - by apply Delete_absent.
  - intros Hne. unfold Has, Get, map_index.
    by rewrite Delete_data, lookup_delete_ne.
Qed.

(** X3 (insert, then delete).  In a container that satisfies the
    invariant, a key that was absent and is added by [Set],
    [InsertBefore] or [InsertAfter] is removed again by [Delete], which
    returns the value just stored and leaves exactly the container
    there was before the insertion. *)
Theorem insert_then_delete_restores m target k v :
  ordered_map_inv m → Has m k = false →
  Delete (Set_ m k v) k = ((v, true), m) ∧
  (Has m target = true →
     Delete (InsertBefore m target k v).2 k = ((v, true), m) ∧
     Delete (InsertAfter m target k v).2 k = ((v, true), m)).
Proof.
  intros Hinv Hk%Has_false.
  assert (k ∉ order m) as Hnotin.
  { intros [? ?]%Hinv. congruence. }
  assert (Has m target = true → target ∈ order m) as Hin.
  { intros Ht%Has_true. by apply Hinv. }
  destruct Hinv as [Hnd _].
  split; [|intros Ht; specialize (Hin Ht); split].
  - rewrite Set_absent by done.
    rewrite <- (take_ge (order m) (length (order m))) at 1 by lia.
    replace [k] with (k :: drop (length (order m)) (order m))
      by (by rewrite drop_all).
    rewrite Delete_spliced by (done || lia). by rewrite eta.
  - destruct (InsertBefore_ok _ _ _ v Hk Hin) as (n & Hn & _ & ->). simpl.
    apply lookup_lt_Some in Hn.
    rewrite Delete_spliced by (done || lia). by rewrite eta.
  - destruct (InsertAfter_ok _ _ _ v Hk Hin) as (n & Hn & _ & ->). simpl.
    apply lookup_lt_Some in Hn.
    rewrite Delete_spliced by (done || lia). by rewrite eta.
Qed.

(** X4 (the last [Set] wins).  Two [Set] calls on one key leave the
    container that the second call alone would leave: the value is the
    later one and the key stands where the first call put or found
    it. *)
Theorem set_last_write_wins m k v v' :
  Set_ (Set_ m k v) k v' = Set_ m k v'.
Proof.
  destruct (data m !! k) as [old|] eqn:Hk.
  - rewrite (Set_present m) by eauto.
    rewrite Set_present by (simpl; rewrite lookup_insert_eq; eauto).
    rewrite Set_present by eauto. simpl. by rewrite insert_insert_eq.
  - rewrite (Set_absent m) by done.
    rewrite Set_present by (simpl; rewrite lookup_insert_eq; eauto).
    rewrite Set_absent by done. simpl. by rewrite insert_insert_eq.
Qed.

(** X5 (deletions commute).  In a container that satisfies the
    invariant, [Delete] leaves [order] filtered of the key, so the
    remaining keys keep their relative order, and two deletions leave
    the same container in either order. *)
Theorem delete_commutes m k1 k2 :
  ordered_map_inv m →
  order (Delete m k1).2 = filter (λ x, x ≠ k1) (order m) ∧
  (Delete (Delete m k1).2 k2).2 = (Delete (Delete m k2).2 k1).2.
Proof.
  intros Hinv. split; [by rewrite Delete_state|].
  rewrite (Delete_state (Delete m k1).2), (Delete_state (Delete m k2).2)
    by (by apply inv_Delete).
  rewrite !Delete_state by done. simpl. f_equal.
  - apply delete_delete.
  - rewrite !list_filter_filter. apply list_filter_iff. intros x. tauto.
Qed.

(** X6 (delete, then set again).  In a container that satisfies the
    invariant, deleting a present key and setting it again moves it to
    the end of the order, behind all other keys in their old relative
    order: unlike the update of a present key, it loses its place. *)
Theorem delete_then_set_moves_last m k v :
  ordered_map_inv m → Has m k = true →
  Keys (Set_ (Delete m k).2 k v) = filter (λ x, x ≠ k) (Keys m) ++ [k] ∧
  data (Set_ (Delete m k).2 k v) = <[k := v]> (data m) ∧
  Len (Set_ (Delete m k).2 k v) = Len m.
Proof.
  intros Hinv [old Hk]%Has_true.
  rewrite Set_absent by (rewrite Delete_data; apply lookup_delete_eq).
  rewrite Delete_state by done. unfold Keys, Len. simpl. split_and!.
  - done.
  - by rewrite insert_delete_eq.
  - rewrite insert_delete_eq. by rewrite map_size_insert_Some by eauto.
Qed.
End Lookups.

(** ** Snapshots, membership and the fresh container *)

Section Snapshots.
Context {K : Type} `{Countable K} {V : Type} `{Zero V}.
Implicit Types (m : OrderedMap K V) (k key target : K).

(** X7 (the three snapshots agree).  [Keys] and [Values] are the key
    and value columns of [Pairs], position by position.  In a container
    that satisfies the invariant, every pair of [Pairs] holds the value
    [Get] returns for its key, every key occurs once, and the snapshot
    has [Len] entries. *)
Theorem snapshots_agree m :
  ordered_map_inv m →
  map Key (Pairs m) = Keys m ∧ map Value (Pairs m) = Values m ∧
  (∀ p, p ∈ Pairs m → Get m (Key p) = (Value p, true)) ∧
  NoDup (Keys m) ∧
  Z.of_nat (length (Pairs m)) = Len m.
Proof.
  intros Hinv. rewrite Pairs_map, Values_map. unfold Keys. simpl.
  split_and!.
  - rewrite map_map. simpl. apply map_id.
  - by rewrite map_map.
  - intros p (k & -> & Hk)%list_elem_of_fmap. simpl.
    apply Hinv in Hk as [v Hv]. unfold Get.
    by rewrite (map_index_Some _ _ _ Hv).
  - apply Hinv.
  - rewrite length_map. unfold Len. by rewrite inv_length.
Qed.

(** X8 (membership).  In a container that satisfies the invariant,
    [Has(k)] holds exactly for the keys [Keys] lists, [Get] on any other
    key returns the zero value with [false], and [Len] is the number of
    keys listed. *)
Theorem has_iff_listed m k :
  ordered_map_inv m →
  (Has m k = true ↔ k ∈ Keys m) ∧
  (k ∉ Keys m → Get m k = (zero, false)) ∧
  (Get m k).2 = Has m k ∧
  Len m = Z.of_nat (length (Keys m)).
Proof.
  intros Hinv. unfold Keys. simpl. split_and!.
  - rewrite Has_true. symmetry. apply Hinv.
  - intros Hk. unfold Get. apply map_index_None.
    destruct (data m !! k) eqn:Hd; [|done]. exfalso. apply Hk, Hinv. eauto.
  - done.
  - unfold Len. by rewrite inv_length.
Qed.

(** X9 ([Clear]).  [Clear] leaves a container with no entries, whatever
    it held: [Len] is [0], the snapshots are empty, every lookup and
    every [Delete] misses, and the registered comparator is kept.  The
    container can be used again: a [Set] after [Clear] gives the
    one-entry container. *)
Theorem clear_empties m k v :
  Len (Clear m) = 0 ∧ Keys (Clear m) = [] ∧ Pairs (Clear m) = [] ∧
  Values (Clear m) = [] ∧
  Get (Clear m) k = (zero, false) ∧ Has (Clear m) k = false ∧
  Delete (Clear m) k = ((zero, false), Clear m) ∧
  less (Clear m) = less m ∧
  Clear (Clear m) = Clear m ∧
  Pairs (Set_ (Clear m) k v) = [mkPair k v] ∧ Len (Set_ (Clear m) k v) = 1.
Proof.
  assert (Clear m = mkOrderedMap ∅ [] (less m)) as -> by done.
  split_and!; try done.
  - rewrite Set_absent by done. rewrite Pairs_map. simpl.
    unfold map_index. by rewrite lookup_insert_eq.
  - rewrite Set_absent by done. unfold Len. simpl.
    by rewrite map_size_insert_None, map_size_empty.
Qed.

(** X10 (the container without entries).  In a container that
    satisfies the invariant and whose [Len] is [0], the snapshots are
    empty, lookups and [Delete] miss, [InsertBefore] and [InsertAfter]
    fail with "target key not found" for every target, and
    [SortedPairs] with a comparator returns no pairs and no error.  None
    of these calls changes the container. *)
Theorem empty_container_misses m target k v (cmp : K → K → bool) :
  ordered_map_inv m → Len m = 0 →
  Keys m = [] ∧ Pairs m = [] ∧ Values m = [] ∧
  Get m k = (zero, false) ∧ Has m k = false ∧
  Delete m k = ((zero, false), m) ∧
  InsertBefore m target k v = (Some (ErrTargetNotFound target), m) ∧
  InsertAfter m target k v = (Some (ErrTargetNotFound target), m) ∧
  SortedPairs m (Some cmp) = (([], None), m).
Proof.
  intros Hinv Hlen.
  assert (data m = ∅) as Hdata.
  { apply map_size_empty_inv. unfold Len in Hlen. lia. }
  assert (order m = []) as Horder.
  { apply nil_length_inv. rewrite (inv_length _ Hinv), Hdata.
    apply map_size_empty. }
  assert (data m !! k = None) as Hk by (by rewrite Hdata).
  assert (target ∉ order m) as Ht by (rewrite Horder; apply not_elem_of_nil).
  split_and!.
  - unfold Keys. by rewrite Horder.
  - by rewrite Pairs_map, Horder.
  - by rewrite Values_map, Horder.
  - unfold Get. by apply map_index_None.
  - by apply Has_false.
  - by apply Delete_absent.
  - by apply InsertBefore_no_target.
  - by apply InsertAfter_no_target.
  - rewrite SortedPairs_with, Pairs_map, Horder. done.
Qed.

Lemma map_fmap {A B C} (g : B → C) (f : A → B) (l : list A) :
  map g (f <$> l) = map (λ x, g (f x)) l.
Proof. induction l as [|x l IH]; [done|]. cbn. f_equal. apply IH. Qed.

Lemma Set_batch_state (kvs : list (K * V)) : ∀ m,
  NoDup kvs.*1 → (∀ k, k ∈ kvs.*1 → data m !! k = None) →
  order (foldl (λ m kv, Set_ m kv.1 kv.2) m kvs) = order m ++ kvs.*1 ∧
  (∀ k, k ∉ kvs.*1 →
     data (foldl (λ m kv, Set_ m kv.1 kv.2) m kvs) !! k = data m !! k) ∧
  (∀ k v, (k, v) ∈ kvs →
     data (foldl (λ m kv, Set_ m kv.1 kv.2) m kvs) !! k = Some v).
Proof.
  induction kvs as [|[k v] kvs IH]; intros m Hnd Hfresh.
  - simpl. rewrite app_nil_r. split_and!; [done..|]. by intros ? ? ?%elem_of_nil.
  - simpl in Hnd. apply NoDup_cons in Hnd as [Hk Hnd]. simpl foldl.
    assert (data m !! k = None) as Hmk by (apply Hfresh; simpl; left).
    destruct (IH (Set_ m k v) Hnd) as (Ho & Hother & Hnew).
    { intros k' Hk'. rewrite Set_data, lookup_insert_ne; [|by intros ->].
      apply Hfresh. simpl. by right. }
    split_and!.
    + rewrite Ho, Set_absent by done. simpl. by rewrite <- app_assoc.
    + intros k' [Hne Hk']%not_elem_of_cons.
      rewrite Hother by done. by rewrite Set_data, lookup_insert_ne.
    + intros k' v' [[= -> ->]|Hin]%elem_of_cons.
      * rewrite Hother by done. by rewrite Set_data, lookup_insert_eq.
      * by apply Hnew.
Qed.

(** X11 (insertion order).  A run of [Set] calls on distinct keys that
    the container, which satisfies the invariant, does not hold yet
    appends the keys in call order: the old pairs come first,
    unchanged, followed by one pair per call with the value of that
    call, and [Len] grows by the number of calls. *)
Theorem set_batch_in_call_order m (kvs : list (K * V)) :
  ordered_map_inv m → NoDup kvs.*1 → (∀ k, k ∈ kvs.*1 → Has m k = false) →
  let m' := foldl (λ m kv, Set_ m kv.1 kv.2) m kvs in
  Keys m' = Keys m ++ kvs.*1 ∧
  Pairs m' = Pairs m ++ map (λ kv, mkPair kv.1 kv.2) kvs ∧
  Values m' = Values m ++ kvs.*2 ∧
  Len m' = (Len m + Z.of_nat (length kvs))%Z.
Proof.
  intros Hinv Hnd Hfresh m'.
  assert (∀ k, k ∈ kvs.*1 → data m !! k = None) as Hfresh'.
  { intros k Hk. by apply Has_false, Hfresh. }
  destruct (Set_batch_state kvs m Hnd Hfresh') as (Ho & Hother & Hnew).
  fold m' in Ho, Hother, Hnew.
  assert (Pairs m' = Pairs m ++ map (λ kv, mkPair kv.1 kv.2) kvs) as HP.
  { rewrite !Pairs_map, Ho, map_app. f_equal.
    - apply map_ext_in. intros k Hk%list_elem_of_In.
      unfold map_index. rewrite Hother; [done|].
      intros Hk'. apply Hinv in Hk as [? ?]. rewrite Hfresh' in *; done.
    - rewrite map_fmap. apply map_ext_in.
      intros [k v] Hkv%list_elem_of_In. simpl.
      unfold map_index. by rewrite (Hnew k v). }
  split_and!.
  - unfold Keys. simpl. done.
  - done.
  - rewrite !Values_map, Ho, map_app. f_equal.
    + apply map_ext_in. intros k Hk%list_elem_of_In.
      unfold map_index. rewrite Hother; [done|].
      intros Hk'. apply Hinv in Hk as [? ?]. rewrite Hfresh' in *; done.
    + rewrite map_fmap. change (kvs.*2) with (map snd kvs). apply map_ext_in.
      intros [k v] Hkv%list_elem_of_In. simpl.
      unfold map_index. by rewrite (Hnew k v).
  - by apply Len_Set_batch.
Qed.
End Snapshots.

(** ** How the calls compose *)

Section Composition.
Context {K : Type} `{Countable K} {V : Type} `{Zero V}.
Implicit Types (m : OrderedMap K V) (k key target : K).

Lemma InsertBefore_at m target k v (n : nat) :
  ordered_map_inv m → data m !! k = None → order m !! n = Some target →
  InsertBefore m target k v =
    (None, mkOrderedMap (<[k := v]> (data m))
                        (take n (order m) ++ k :: drop n (order m)) (less m)).
Proof.
  intros Hinv Hk Hn.
  destruct (InsertBefore_ok m target k v Hk) as (n' & Hn' & _ & ->).
  { by eapply list_elem_of_lookup_2. }
  by assert (n' = n) as -> by (eapply NoDup_lookup; [apply Hinv|done..]).
Qed.

Lemma InsertAfter_at m target k v (n : nat) :
  ordered_map_inv m → data m !! k = None → order m !! n = Some target →
  InsertAfter m target k v =
    (None, mkOrderedMap (<[k := v]> (data m))
                        (take (S n) (order m) ++ k :: drop (S n) (order m)) (less m)).
Proof.
  intros Hinv Hk Hn.
  destruct (InsertAfter_ok m target k v Hk) as (n' & Hn' & _ & ->).
  { by eapply list_elem_of_lookup_2. }
  by assert (n' = n) as -> by (eapply NoDup_lookup; [apply Hinv|done..]).
Qed.

(** X12 (neighbouring insertions).  In a container that satisfies the
    invariant and does not hold [k]: inserting [k] after a key is
    inserting it before the key that follows; inserting it after the
    last key is [Set]; inserting it before the first key puts it at the
    head of [Keys]. *)
Theorem insert_neighbours m k v :
  ordered_map_inv m → Has m k = false →
  (∀ (n : nat) t t', order m !! n = Some t → order m !! S n = Some t' →
     InsertAfter m t k v = InsertBefore m t' k v) ∧
  (∀ t, last (order m) = Some t → InsertAfter m t k v = (None, Set_ m k v)) ∧
  (∀ t, head (order m) = Some t →
     (InsertBefore m t k v).1 = None ∧
     Keys (InsertBefore m t k v).2 = k :: Keys m).
Proof.
  intros Hinv Hk%Has_false. split_and!.
  - intros n t t' Hn Hn'.
    by rewrite (InsertAfter_at _ _ _ _ n), (InsertBefore_at _ _ _ _ (S n)).
  - intros t Hlast. rewrite last_lookup in Hlast.
    assert (order m ≠ []) as Hne by (by intros Hnil; rewrite Hnil in Hlast).
    assert (length (order m) ≠ 0%nat) as Hlen
      by (by intros ?%nil_length_inv).
    rewrite (InsertAfter_at _ _ _ _ (pred (length (order m)))) by done.
    rewrite Set_absent by done.
    replace (S (pred (length (order m)))) with (length (order m)) by lia.
    by rewrite take_ge, drop_all by lia.
  - intros t Hhead. rewrite head_lookup in Hhead.
    by rewrite (InsertBefore_at _ _ _ _ 0%nat).
Qed.

(** X13 (what [Upsert] returns is what it stored).  Whenever [Upsert]
    returns no error, the value it returns is the value [Get] finds
    under the key afterwards; it reports an insertion exactly when the
    key was absent, in which case the key is appended to [Keys], and
    otherwise [Keys] is unchanged.  It returns an error exactly when the
    key is present and the callback is nil. *)
Theorem upsert_returns_stored {W} m k nv (fn : option (V → W → V * W)) (w : W) :
  let r := (Upsert m k nv fn w).1.1 in
  let m' := (Upsert m k nv fn w).1.2 in
  (r.2 = None →
     Get m' k = (r.1.1, true) ∧
     (r.1.2 = true ↔ Has m k = false) ∧
     Keys m' = (if r.1.2 then Keys m ++ [k] else Keys m)) ∧
  (r.2 ≠ None ↔ Has m k = true ∧ fn = None).
Proof.
  intros r m'. unfold r, m'. clear r m'.
  destruct (data m !! k) as [old|] eqn:Hk.
  - assert (Has m k = true) as HH by (apply Has_true; eauto).
    destruct fn as [f|].
    + rewrite (Upsert_present _ _ _ _ _ _ Hk). simpl. split.
      * intros _. unfold Get, map_index. simpl. rewrite lookup_insert_eq.
        split_and!; [done| |done]. rewrite HH. split; done.
      * split; [done|]. by intros [_ ?].
    + rewrite Upsert_present_nil by eauto. simpl. split; [done|]. done.
  - assert (Has m k = false) as HH by (by apply Has_false).
    rewrite Upsert_absent by done. simpl. split.
    + intros _. unfold Get, map_index. simpl. rewrite lookup_insert_eq.
      split_and!; done.
    + rewrite HH. split; [done|]. by intros [? _].
Qed.

(** X14 ([indexOf]).  [indexOf] returns [-1] exactly for the keys that
    do not occur in [order]; any other result is an index inside
    [order] that holds the key and has no occurrence of it before. *)
Theorem indexOf_first m k :
  (indexOf m k = -1 ↔ k ∉ order m) ∧
  (indexOf m k ≠ -1 →
     0 ≤ indexOf m k < Z.of_nat (length (order m)) ∧
     order m !! Z.to_nat (indexOf m k) = Some k ∧
     ∀ j : nat, (j < Z.to_nat (indexOf m k))%nat → order m !! j ≠ Some k).
Proof.
  destruct (decide (k ∈ order m)) as [Hin|Hnotin].
  - destruct (indexOf_present _ _ Hin) as (n & Hidx & Hn & Hfirst).
    rewrite Hidx, Nat2Z.id. pose proof (lookup_lt_Some _ _ _ Hn). split.
    + split; [lia|done].
    + intros _. split_and!; [lia..|done|].
      intros j Hj Hjk. apply Hfirst, elem_of_take. by exists j.
  - rewrite indexOf_absent by done. split; [done|]. done.
Qed.

(** X15 (a batch of [Set] calls in any order).  [Set] calls on distinct
    keys that the container does not hold yet store the same contents
    in whatever order they are made: the same value under every key and
    the same [Len]; only the order of the new keys in [Keys] follows the
    order of the calls. *)
Theorem set_batch_any_order m (kvs kvs' : list (K * V)) :
  kvs ≡ₚ kvs' → NoDup kvs.*1 → (∀ k, k ∈ kvs.*1 → Has m k = false) →
  let run_sets := foldl (λ m kv, Set_ m kv.1 kv.2) m in
  data (run_sets kvs') = data (run_sets kvs) ∧
  Len (run_sets kvs') = (Len m + Z.of_nat (length kvs))%Z ∧
  (∀ k, Get (run_sets kvs') k = Get (run_sets kvs) k) ∧
  order (run_sets kvs') = order m ++ kvs'.*1.
Proof.
  intros Hp Hnd Hfresh run_sets.
  assert (∀ k, k ∈ kvs.*1 → data m !! k = None) as Hf.
  { intros k Hk. by apply Has_false, Hfresh. }
  assert (NoDup kvs'.*1) as Hnd' by (by rewrite <- Hp).
  assert (∀ k, k ∈ kvs'.*1 → data m !! k = None) as Hf'.
  { intros k Hk. apply Hf. by rewrite Hp. }
  destruct (Set_batch_state kvs m Hnd Hf) as (_ & Hother & Hnew).
  destruct (Set_batch_state kvs' m Hnd' Hf') as (Ho' & Hother' & Hnew').
  assert (data (run_sets kvs') = data (run_sets kvs)) as Hdata.
  { apply map_eq. intros k. unfold run_sets.
    destruct (decide (k ∈ kvs.*1)) as [Hk|Hk].
    - apply list_elem_of_fmap in Hk as ([k' v] & -> & Hkv). simpl.
      rewrite (Hnew k' v Hkv). apply Hnew'. by rewrite <- Hp.
    - rewrite Hother by done. apply Hother'. by rewrite <- Hp. }
  split_and!; [done| |by intros k; unfold Get; rewrite Hdata|done].
  by apply Len_Set_batch_perm.
Qed.
End Composition.

(** ** Options *)

Section Options.
Context {K : Type}.

(** X16 (capacity hints).  With options a caller can build, the
    capacity [NewOrderedMap] allocates with is never negative.
    [WithCapacity(n)] with [n <= 0] and a nil option change nothing, a
    positive [n] replaces the capacity and keeps the comparator, and
    [WithComparator] keeps the capacity. *)
Theorem options_capacity (opts : list (option (Option K))) :
  Forall from_constructors opts →
  0 ≤ capacity (apply_options opts) ∧
  (∀ n, n ≤ 0 → apply_options (opts ++ [Some (WithCapacity n)]) = apply_options opts) ∧
  apply_options (opts ++ [None]) = apply_options opts ∧
  (∀ n, 0 < n →
     capacity (apply_options (opts ++ [Some (WithCapacity n)])) = n ∧
     cfg_less (apply_options (opts ++ [Some (WithCapacity n)])) =
       cfg_less (apply_options opts)) ∧
  (∀ less, capacity (apply_options (opts ++ [Some (WithComparator less)])) =
           capacity (apply_options opts)).
Proof.
  intros Hall. split_and!.
  - induction opts as [|opt opts IH] using rev_ind; [done|].
    apply Forall_app in Hall as [Hall Hopt%Forall_inv]. specialize (IH Hall).
    unfold apply_options in *. rewrite foldl_app. simpl.
    destruct Hopt as [->|[[n ->]|[l ->]]]; [done| |done].
    unfold WithCapacity. case_decide; [simpl; lia|done].
  - intros n Hn. unfold apply_options. rewrite foldl_app. simpl.
    unfold WithCapacity. by rewrite decide_False by lia.
  - unfold apply_options. by rewrite foldl_app.
  - intros n Hn. unfold apply_options. rewrite foldl_app. simpl.
    unfold WithCapacity. by rewrite decide_True by lia.
  - intros l. unfold apply_options. by rewrite foldl_app.
Qed.
End Options.

(** ** More on sorted snapshots *)

Section StableUnique.
Local Open Scope nat_scope.
Context {A : Type} (cmp : A → A → bool).
Implicit Types (l : list A).

Lemma StronglySorted_lookup (R : relation A) l (i j : nat) x y :
  StronglySorted R l → i < j → l !! i = Some x → l !! j = Some y → R x y.
Proof.
  intros Hl Hij Hi Hj. rewrite <- (take_drop j l) in Hl.
  apply (StronglySorted_app_1_elem_of _ _ _ x y) in Hl; [done| |].
  - apply elem_of_take. exists i. split; [done|lia].
  - apply (list_elem_of_lookup_2 _ 0). by rewrite lookup_drop, Nat.add_0_r.
Qed.

Lemma StronglySorted_pairwise (R : relation A) l :
  (∀ (i j : nat) x y, i < j → l !! i = Some x → l !! j = Some y → R x y) →
  StronglySorted R l.
Proof.
  induction l as [|x l IH]; intros Hpw; constructor.
  - apply IH. intros i j y z Hij Hi Hj. by apply (Hpw (S i) (S j)); [lia|..].
  - apply Forall_forall. intros y [j Hj]%list_elem_of_lookup_1.
    by apply (Hpw 0 (S j)); [lia|..].
Qed.

(** A duplicate-free list has one stable sorted arrangement. *)
Lemma stable_sorted_unique l l1 l2 :
  StrictWeakOrder cmp → NoDup l →
  stable_step cmp l l1 → StronglySorted (le_by cmp) l1 →
  stable_step cmp l l2 → StronglySorted (le_by cmp) l2 →
  l1 = l2.
Proof.
  intros Hswo Hnd Hst1 HS1 Hst2 HS2.
  set (T := λ x y, le_by cmp x y ∧ (equiv_by cmp x y → occurs_before l x y)).
  assert (∀ l', stable_step cmp l l' → StronglySorted (le_by cmp) l' →
                StronglySorted T l') as Hlift.
  { intros l' Hst HS. apply StronglySorted_pairwise.
    intros i j x y Hij Hi Hj. split.
    - by apply (StronglySorted_lookup _ l' i j).
    - intros Heq. apply (stable_step_NoDup cmp l l' x y Hnd Hst Heq).
      by exists i, j. }
  apply (StronglySorted_unique_strong T).
  - intros x y Hx Hy [Hxy Hbefore] [Hyx Hafter].
    assert (equiv_by cmp x y) as Heq by (by split).
    assert (equiv_by cmp y x) as Heq' by (by split).
    exfalso. by apply (occurs_before_NoDup l x y Hnd); auto.
  - by apply Hlift.
  - by apply Hlift.
  - destruct Hst1 as [<- _]. by destruct Hst2 as [<- _].
Qed.
End StableUnique.

Section MoreSorted.
Context {K : Type} `{Countable K} {V : Type} `{Zero V}.
Implicit Types (m : OrderedMap K V).

(** X17 ([SortedPairs] returns the entries).  For any comparator,
    consistent or not, and a container that satisfies the invariant,
    [SortedPairs] returns as many pairs as [Len] says, each key of the
    container once, and with every key the value [Get] returns for
    it. *)
Theorem sortedPairs_keeps_entries m (cmp : K → K → bool) :
  ordered_map_inv m →
  let out := (SortedPairs m (Some cmp)).1.1 in
  (SortedPairs m (Some cmp)).1.2 = None ∧
  Z.of_nat (length out) = Len m ∧
  map Key out ≡ₚ Keys m ∧ NoDup (map Key out) ∧
  (∀ p, p ∈ out → Get m (Key p) = (Value p, true)).
Proof.
  intros Hinv out. unfold out. rewrite SortedPairs_with. simpl.
  pose proof (SliceStable_perm (by_key cmp) (Pairs m)) as Hp.
  destruct (snapshots_agree m Hinv) as (HK & _ & HG & Hnd & Hlen).
  split_and!.
  - done.
  - by rewrite Hp.
  - by rewrite Hp, HK.
  - by rewrite Hp, HK.
  - intros p Hin. apply HG. by rewrite <- Hp.
Qed.

(** X18 (a sorted container is returned as it is).  When the
    comparator is a strict weak ordering, the keys are distinct and
    [Keys] is already in comparator order, [SortedPairs] returns the
    insertion-order snapshot [Pairs] unchanged. *)
Theorem sortedPairs_of_sorted m (lt : K → K → bool) :
  StrictWeakOrder lt → NoDup (order m) → sorted_by lt (Keys m) →
  SortedPairs m (Some lt) = ((Pairs m, None), m).
Proof.
  intros Hswo Hnd Hsorted. rewrite SortedPairs_with. do 2 f_equal.
  apply (swo_by_key (V := V)) in Hswo as Hswo'.
  destruct (SliceStable_spec (by_key lt) Hswo' (Pairs m)) as [HS Hst].
  apply (stable_sorted_unique (by_key lt) (Pairs m));
    [done|by apply Pairs_NoDup|done|done|apply stable_step_refl|].
  apply StronglySorted_pairwise. intros i j p q Hij Hi Hj.
  rewrite Pairs_map in Hi, Hj.
  change (map ?f ?l) with (f <$> l) in Hi, Hj.
  rewrite list_lookup_fmap in Hi, Hj.
  destruct (order m !! i) as [a|] eqn:Ha; [|done].
  destruct (order m !! j) as [b|] eqn:Hb; [|done].
  simpl in Hi, Hj. simplify_eq. unfold le_by, by_key. simpl.
  by apply (Hsorted i j).
Qed.

(** X19 (a total order forgets the insertion order).  When the
    comparator is a strict weak ordering under which only equal keys are
    equivalent, two containers that satisfy the invariant and store the
    same values under the same keys have the same sorted snapshot,
    however their insertion orders differ. *)
Theorem sortedPairs_order_independent m1 m2 (lt : K → K → bool) :
  StrictWeakOrder lt → (∀ a b, equiv_by lt a b → a = b) →
  ordered_map_inv m1 → ordered_map_inv m2 → data m1 = data m2 →
  (SortedPairs m1 (Some lt)).1 = (SortedPairs m2 (Some lt)).1.
Proof.
  intros Hswo Htotal Hinv1 Hinv2 Hdata. rewrite !SortedPairs_with. simpl.
  f_equal. apply (swo_by_key (V := V)) in Hswo as Hswo'.
  destruct (SliceStable_spec (by_key lt) Hswo' (Pairs m1)) as [HS1 [Hp1 _]].
  destruct (SliceStable_spec (by_key lt) Hswo' (Pairs m2)) as [HS2 [Hp2 _]].
  assert (Pairs m1 ≡ₚ Pairs m2) as Hp.
  { rewrite !Pairs_map, Hdata.
    change (map ?f ?l) with (f <$> l). apply fmap_Permutation.
    apply NoDup_Permutation; [apply Hinv1|apply Hinv2|].
    intros k. destruct Hinv1 as [_ ->]. destruct Hinv2 as [_ ->].
    by rewrite Hdata. }
  apply (StronglySorted_unique_strong (le_by (by_key lt))); [|done..|].
  - intros p q Hin1 Hin2 Hpq Hqp.
    rewrite <- Hp1 in Hin1. rewrite <- Hp2 in Hin2.
    rewrite Pairs_map in Hin1, Hin2.
    apply list_elem_of_In, in_map_iff in Hin1 as (a & <- & _).
    apply list_elem_of_In, in_map_iff in Hin2 as (b & <- & _).
    assert (a = b) as -> by (apply Htotal; by split).
    by rewrite Hdata.
  - by rewrite <- Hp1, <- Hp2.
Qed.
End MoreSorted.

(** ** The further properties on concrete containers *)

Section MoreScenarios.
Local Open Scope string_scope.

Lemma inv_ab : ordered_map_inv (Set_ (Set_ new_string_map "a" 1) "b" 2).
Proof. do 2 apply inv_Set. apply inv_new. Qed.

Lemma inv_abc :
  ordered_map_inv (Set_ (Set_ (Set_ new_string_map "a" 1) "b" 2) "c" 3).
Proof. do 3 apply inv_Set. apply inv_new. Qed.

Lemma set_then_get_witness :
  let m := Set_ (Set_ new_string_map "a" 1) "b" 2 in
  "b" ≠ "a" ∧
  Get (Set_ m "a" 5) "a" = (5, true) ∧ Has (Set_ m "a" 5) "a" = true ∧
  Get (Set_ m "a" 5) "b" = Get m "b" ∧ Has (Set_ m "a" 5) "b" = Has m "b".
Proof.
  intros m. assert ("b" ≠ "a") as Hne by done.
  destruct (set_then_get m "a" 5 "b") as (Hget & Hhas & Hother).
  destruct (Hother Hne) as [Hget' Hhas'].
  split_and!; done.
Defined.

Lemma delete_then_get_witness :
  let m := Set_ (Set_ new_string_map "a" 1) "b" 2 in
  "b" ≠ "a" ∧
  Get (Delete m "a").2 "a" = (0, false) ∧ Has (Delete m "a").2 "a" = false ∧
  Delete (Delete m "a").2 "a" = ((0, false), (Delete m "a").2) ∧
  Get (Delete m "a").2 "b" = Get m "b" ∧ Has (Delete m "a").2 "b" = Has m "b".
Proof.
  intros m. assert ("b" ≠ "a") as Hne by done.
  destruct (delete_then_get m "a" "b") as (Hget & Hhas & Hagain & Hother).
  destruct (Hother Hne) as [Hget' Hhas'].
  split_and!; done.
Defined.

Lemma insert_then_delete_restores_witness :
  let m := Set_ (Set_ new_string_map "a" 1) "b" 2 in
  ordered_map_inv m ∧ Has m "c" = false ∧ Has m "a" = true ∧
  Delete (Set_ m "c" 3) "c" = ((3, true), m) ∧
  Delete (InsertBefore m "a" "c" 3).2 "c" = ((3, true), m) ∧
  Delete (InsertAfter m "a" "c" 3).2 "c" = ((3, true), m) ∧
  Delete (Set_ new_string_map "c" 3) "c" = ((3, true), new_string_map).
Proof.
  intros m. pose proof inv_ab as Hinv.
  assert (Has m "c" = false) as Hk by (by vm_compute).
  assert (Has m "a" = true) as Ht by (by vm_compute).
  destruct (insert_then_delete_restores m "a" "c" 3 Hinv Hk) as [Hset Hins].
  destruct (Hins Ht) as [Hbefore Hafter].
  destruct (insert_then_delete_restores new_string_map "a" "c" 3)
    as [Hfresh _]; [apply inv_new|by vm_compute|].
  split_and!; done.
Defined.

Lemma empty_container_misses_witness :
  let always := λ _ _ : string, true in
  let m := (Delete (Set_ new_string_map "a" 1) "a").2 in
  ordered_map_inv m ∧ Len m = 0 ∧
  Keys m = [] ∧ Pairs m = [] ∧ Values m = [] ∧
  Get m "a" = (0, false) ∧ Has m "a" = false ∧
  Delete m "a" = ((0, false), m) ∧
  InsertBefore m "a" "b" 2 = (Some (ErrTargetNotFound "a"), m) ∧
  InsertAfter m "a" "b" 2 = (Some (ErrTargetNotFound "a"), m) ∧
  SortedPairs m (Some always) = (([], None), m).
Proof.
  intros always m.
  assert (ordered_map_inv m) as Hinv by (apply inv_Delete, inv_Set, inv_new).
  assert (Len m = 0) as Hlen by (by vm_compute).
  split; [done|]. split; [done|].
  by apply (empty_container_misses m "a" "b" 2 always).
Defined.

Lemma delete_commutes_witness :
  let m := Set_ (Set_ (Set_ new_string_map "a" 1) "b" 2) "c" 3 in
  ordered_map_inv m ∧
  (order (Delete m "a").2 = filter (λ x, x ≠ "a") (order m) ∧
   (Delete (Delete m "a").2 "c").2 = (Delete (Delete m "c").2 "a").2) ∧
  Keys (Delete (Delete m "a").2 "c").2 = ["b"].
Proof.
  intros m. pose proof inv_abc as Hinv.
  split; [done|]. split; [by apply delete_commutes|by vm_compute].
Defined.

Lemma delete_then_set_moves_last_witness :
  let m := Set_ (Set_ (Set_ new_string_map "a" 1) "b" 2) "c" 3 in
  ordered_map_inv m ∧ Has m "a" = true ∧
  (Keys (Set_ (Delete m "a").2 "a" 9) = (filter (λ x, x ≠ "a") (Keys m) ++ ["a"])%list ∧
   data (Set_ (Delete m "a").2 "a" 9) = <["a" := 9]> (data m) ∧
   Len (Set_ (Delete m "a").2 "a" 9) = Len m) ∧
  Keys (Set_ (Delete m "a").2 "a" 9) = ["b"; "c"; "a"].
Proof.
  intros m. pose proof inv_abc as Hinv.
  split; [done|]. split; [by vm_compute|].
  split; [|by vm_compute].
  by apply delete_then_set_moves_last; [|vm_compute].
Defined.

Lemma snapshots_agree_witness :
  let m := Set_ (Set_ new_string_map "a" 1) "b" 2 in
  ordered_map_inv m ∧
  (map Key (Pairs m) = Keys m ∧ map Value (Pairs m) = Values m ∧
   (∀ p, p ∈ Pairs m → Get m (Key p) = (Value p, true)) ∧
   NoDup (Keys m) ∧ Z.of_nat (length (Pairs m)) = Len m) ∧
  Values m = [1; 2].
Proof.
  intros m. pose proof inv_ab as Hinv.
  split; [done|]. split; [by apply snapshots_agree|by vm_compute].
Defined.

Lemma has_iff_listed_witness :
  let m := Set_ (Set_ new_string_map "a" 1) "b" 2 in
  ordered_map_inv m ∧
  ((Has m "z" = true ↔ "z" ∈ Keys m) ∧
   ("z" ∉ Keys m → Get m "z" = (0, false)) ∧
   (Get m "z").2 = Has m "z" ∧
   Len m = Z.of_nat (length (Keys m))) ∧
  Len m = 2.
Proof.
  intros m. pose proof inv_ab as Hinv.
  split; [done|]. split; [by apply has_iff_listed|by vm_compute].
Defined.

Lemma set_batch_in_call_order_witness :
  let m := Set_ new_string_map "z" 0 in
  let kvs := [("b", 2); ("a", 1)] in
  let m' := foldl (λ m kv, Set_ m kv.1 kv.2) m kvs in
  ordered_map_inv m ∧ NoDup kvs.*1 ∧
  (Keys m' = (Keys m ++ kvs.*1)%list ∧
   Pairs m' = (Pairs m ++ map (λ kv, mkPair kv.1 kv.2) kvs)%list ∧
   Values m' = (Values m ++ kvs.*2)%list ∧
   Len m' = (Len m + Z.of_nat (length kvs))%Z) ∧
  Keys m' = ["z"; "b"; "a"].
Proof.
  intros m kvs m'.
  assert (ordered_map_inv m) as Hinv by (apply inv_Set, inv_new).
  assert (NoDup kvs.*1) as Hnd by (apply (bool_decide_unpack _); by vm_compute).
  split; [done|]. split; [done|]. split; [|by vm_compute].
  apply set_batch_in_call_order; [done|done|].
  intros k [->|[->|?%elem_of_nil]%elem_of_cons]%elem_of_cons; by vm_compute.
Defined.

Lemma insert_neighbours_witness :
  let m := Set_ (Set_ new_string_map "a" 1) "b" 2 in
  ordered_map_inv m ∧ Has m "c" = false ∧
  InsertAfter m "a" "c" 3 = InsertBefore m "b" "c" 3 ∧
  InsertAfter m "b" "c" 3 = (None, Set_ m "c" 3) ∧
  Keys (InsertBefore m "a" "c" 3).2 = "c" :: Keys m.
Proof.
  intros m. pose proof inv_ab as Hinv.
  assert (Has m "c" = false) as Hk by (by vm_compute).
  destruct (insert_neighbours m "c" 3 Hinv Hk) as (Hnext & Hlast & Hhead).
  split_and!; [done|done| | |].
  - by apply (Hnext 0%nat).
  - by apply Hlast.
  - by apply Hhead.
Defined.

Lemma upsert_returns_stored_witness :
  let m := Set_ new_string_map "a" 1 in
  (Upsert m "a" 10 (Some (counted (Z.add 1))) 0%nat).1.1.2 = None ∧
  Get (Upsert m "a" 10 (Some (counted (Z.add 1))) 0%nat).1.2 "a" = (2, true) ∧
  Keys (Upsert m "a" 10 (Some (counted (Z.add 1))) 0%nat).1.2 = ["a"] ∧
  (Upsert m "a" 10 None 0%nat).1.1.2 ≠ None.
Proof.
  intros m.
  destruct (upsert_returns_stored m "a" 10 (Some (counted (Z.add 1))) 0%nat)
    as [Hok _].
  destruct (upsert_returns_stored m "a" 10 (@None (Z → nat → Z * nat)) 0%nat)
    as [_ Herr].
  assert ((Upsert m "a" 10 (Some (counted (Z.add 1))) 0%nat).1.1.2 = None)
    as Hnone by (by vm_compute).
  destruct (Hok Hnone) as (Hget & _ & Hkeys).
  split_and!; [done|by rewrite Hget|by rewrite Hkeys|].
  apply Herr. split; [by vm_compute|done].
Defined.

Lemma indexOf_first_witness :
  let m := Set_ (Set_ new_string_map "a" 1) "b" 2 in
  indexOf m "b" ≠ -1 ∧ indexOf m "b" = 1 ∧ indexOf m "z" = -1 ∧
  order m !! Z.to_nat (indexOf m "b") = Some "b".
Proof.
  intros m.
  assert (indexOf m "b" ≠ -1) as Hne by (by vm_compute).
  destruct (indexOf_first m "b") as [_ Hfound].
  destruct (Hfound Hne) as (_ & Hat & _).
  split_and!; [done|by vm_compute|by vm_compute|done].
Defined.

Lemma set_batch_any_order_witness :
  let m := Set_ new_string_map "z" 0 in
  let kvs := [("a", 1); ("b", 2)] in
  let kvs' := [("b", 2); ("a", 1)] in
  let run_sets := foldl (λ m kv, Set_ m kv.1 kv.2) m in
  kvs ≡ₚ kvs' ∧ NoDup kvs.*1 ∧
  data (run_sets kvs') = data (run_sets kvs) ∧
  Len (run_sets kvs') = 3 ∧
  order (run_sets kvs') = ["z"; "b"; "a"] ∧ order (run_sets kvs) = ["z"; "a"; "b"].
Proof.
  intros m kvs kvs' run_sets.
  assert (kvs ≡ₚ kvs') as Hp by apply perm_swap.
  assert (NoDup kvs.*1) as Hnd by (apply (bool_decide_unpack _); by vm_compute).
  destruct (set_batch_any_order m kvs kvs' Hp Hnd) as (Hdata & Hlen & _ & Ho).
  { intros k [->|[->|?%elem_of_nil]%elem_of_cons]%elem_of_cons; by vm_compute. }
  split_and!; [done|done|done|by vm_compute|by vm_compute|by vm_compute].
Defined.

Lemma options_capacity_witness :
  let opts : list (option (Option string)) :=
    [Some (WithCapacity 8); None; Some (WithComparator None); Some (WithCapacity (-3))] in
  Forall from_constructors opts ∧
  (0 ≤ capacity (apply_options opts))%Z ∧ capacity (apply_options opts) = 8 ∧
  apply_options (opts ++ [Some (WithCapacity 0)]) = apply_options opts ∧
  capacity (apply_options (opts ++ [Some (WithCapacity 16)])) = 16.
Proof.
  intros opts.
  assert (Forall from_constructors opts) as Hall.
  { constructor; [right; left; by exists 8|].
    constructor; [by left|].
    constructor; [right; right; by exists None|].
    constructor; [right; left; by exists (-3)|]. constructor. }
  destruct (options_capacity opts Hall) as (Hnonneg & Hnoop & _ & Hpos & _).
  split_and!; [done|done|by vm_compute|by apply Hnoop|by apply Hpos].
Defined.

Lemma sortedPairs_keeps_entries_witness :
  let always := λ _ _ : string, true in
  let m := Set_ (Set_ new_string_map "a" 1) "b" 2 in
  let out := (SortedPairs m (Some always)).1.1 in
  ordered_map_inv m ∧
  ((SortedPairs m (Some always)).1.2 = None ∧
   Z.of_nat (length out) = Len m ∧
   map Key out ≡ₚ Keys m ∧ NoDup (map Key out) ∧
   (∀ p, p ∈ out → Get m (Key p) = (Value p, true))) ∧
  out = [mkPair "b" 2; mkPair "a" 1].
Proof.
  intros always m out. pose proof inv_ab as Hinv.
  split; [done|]. split; [by apply sortedPairs_keeps_entries|by vm_compute].
Defined.

Lemma sortedPairs_of_sorted_witness :
  let by_len := λ a b : string, bool_decide (String.length a < String.length b)%nat in
  let m := Set_ (Set_ (Set_ new_string_map "c" 3) "aa" 1) "bb" 2 in
  StrictWeakOrder by_len ∧ NoDup (order m) ∧ sorted_by by_len (Keys m) ∧
  SortedPairs m (Some by_len) = ((Pairs m, None), m).
Proof.
  intros by_len m.
  assert (StrictWeakOrder by_len) as Hswo by apply swo_by_measure.
  assert (NoDup (order m)) as Hnd by (apply (bool_decide_unpack _); by vm_compute).
  assert (sorted_by by_len (Keys m)) as Hsorted.
  { assert (Keys m = ["c"; "aa"; "bb"]) as -> by (by vm_compute).
    intros i j x y Hij Hi Hj.
    destruct i as [|[|[|i]]], j as [|[|[|j]]]; cbn in Hi, Hj; simplify_eq;
      try lia; by vm_compute. }
  split_and!; [done..|]. by apply sortedPairs_of_sorted.
Defined.

Lemma sortedPairs_order_independent_witness :
  let lt := λ a b : nat, bool_decide (a < b)%nat in
  let m1 := Set_ (Set_ (NewOrderedMap (K := nat) (V := Z) []) 1%nat 10) 2%nat 20 in
  let m2 := Set_ (Set_ (NewOrderedMap (K := nat) (V := Z) []) 2%nat 20) 1%nat 10 in
  StrictWeakOrder lt ∧ (∀ a b, equiv_by lt a b → a = b) ∧
  ordered_map_inv m1 ∧ ordered_map_inv m2 ∧ data m1 = data m2 ∧
  Keys m1 ≠ Keys m2 ∧
  (SortedPairs m1 (Some lt)).1 = (SortedPairs m2 (Some lt)).1.
Proof.
  intros lt m1 m2.
  assert (StrictWeakOrder lt) as Hswo by apply (swo_by_measure id).
  assert (∀ a b, equiv_by lt a b → a = b) as Htotal.
  { intros a b [Hab%bool_decide_eq_false Hba%bool_decide_eq_false]. lia. }
  assert (ordered_map_inv m1) as Hinv1 by (do 2 apply inv_Set; apply inv_new).
  assert (ordered_map_inv m2) as Hinv2 by (do 2 apply inv_Set; apply inv_new).
  assert (data m1 = data m2) as Hdata by (by vm_compute).
  split_and!; [done..|by vm_compute|].
  by apply sortedPairs_order_independent.
Defined.
End MoreScenarios.
